(** * pip-license-audit: license resolution and policy enforcement

    A shallow embedding of the decision logic of [piplicenses.py]:
    [normalize_pkg_name], [select_license_by_source], the four
    case-insensitive set matchers, the package loop of [get_packages]
    (filter, fail-on check, allow-only check) and the counter of
    [create_summary_table]; then [find_license_from_classifier],
    [extract_homepage] and the metadata loop of [get_pkg_info],
    [get_output_fields], [get_sortby], the rows of [create_licenses_table],
    the enumeration helpers and the CSV escaping.

    Modelling conventions.
    - A Python [str] is a [string]; a character is a code point below 256
      (the type [ascii]), so [str.lower] and [str.strip] are the
      restrictions of Python's to those code points.
    - A Python [set] of strings is a [gset string]; a [for] loop over a set
      is a [set_fold] whose step is the loop body. Python fixes no order of
      iteration; the lemmas on the matchers characterise their results by
      membership and by the number of matches, whatever the order.
    - [sys.exit], an uncaught exception and writes to [sys.stderr] are
      explicit in the result of the embedded function.
    - The generator is embedded twice: [get_packages] is its loop on the
      records that [get_pkg_info] has built, [Dist.get_packages] is the loop
      on distributions, with the call of [get_pkg_info] that can raise
      [ValueError]. Reading files is not modelled: what
      [get_pkg_included_file] returns is part of a distribution. *)

From Stdlib Require Import Ascii.
From Stdlib Require String.
From stdpp Require Import base gmap sets list strings sorting.

#[local] Set Warnings "-clear-no-such-hyp".

(** ** Strings *)

Module Str.

(** Code points, as numbers. *)
Definition ord (c : ascii) : nat := nat_of_ascii c.

(** [c.lower()] for a code point below 256: the letters A-Z and the
    Latin-1 capitals U+00C0..U+00DE except the multiplication sign U+00D7
    move up by 32; everything else is unchanged. *)
Definition lower_char (c : ascii) : ascii :=
  let n := ord c in
  if ((65 <=? n) && (n <=? 90))
     || ((192 <=? n) && (n <=? 222) && negb (n =? 215))
  then ascii_of_nat (n + 32)
  else c.

(** [s.lower()] *)
Fixpoint lower (s : string) : string :=
  match s with
  | EmptyString => EmptyString
  | String c s' => String (lower_char c) (lower s')
  end.

(** [s.startswith(t)] *)
Fixpoint startswith (s t : string) : bool :=
  match t, s with
  | EmptyString, _ => true
  | String _ _, EmptyString => false
  | String b t', String a s' =>
      if decide (a = b) then startswith s' t' else false
  end.

(** [t in s] on strings: [t] occurs in [s] as a contiguous substring. *)
Fixpoint contains (s t : string) : bool :=
  startswith s t ||
  match s with
  | EmptyString => false
  | String _ s' => contains s' t
  end.

(** Whitespace removed by [str.strip()], for code points below 256. *)
Definition is_space (c : ascii) : bool :=
  let n := ord c in
  ((9 <=? n) && (n <=? 13)) || ((28 <=? n) && (n <=? 32))
  || (n =? 133) || (n =? 160).

Fixpoint lstrip (s : string) : string :=
  match s with
  | EmptyString => EmptyString
  | String c s' => if is_space c then lstrip s' else s
  end.

Fixpoint rstrip (s : string) : string :=
  match s with
  | EmptyString => EmptyString
  | String c s' =>
      match rstrip s' with
      | EmptyString => if is_space c then EmptyString else String c EmptyString
      | r => String c r
      end
  end.

(** [s.strip()] *)
Definition strip (s : string) : string := rstrip (lstrip s).

(** [s.split(sep)] for a one-character separator: always at least one
    field. *)
Fixpoint split (sep : ascii) (s : string) : list string :=
  match s with
  | EmptyString => [EmptyString]
  | String c s' =>
      if decide (c = sep) then EmptyString :: split sep s'
      else match split sep s' with
           | [] => [String c EmptyString]
           | f :: fs => String c f :: fs
           end
  end.

(** [sep.join(l)] *)
Fixpoint join (sep : string) (l : list string) : string :=
  match l with
  | [] => EmptyString
  | [x] => x
  | x :: l' => x +:+ sep +:+ join sep l'
  end.

(** The order of [sorted] on strings: lexicographic on code points. *)
Definition le (s t : string) : Prop := String.leb s t = true.

#[global] Instance le_dec s t : Decision (le s t).
Proof. unfold le. apply _. Defined.

(** [sorted(l)] *)
Definition sorted (l : list string) : list string := merge_sort le l.

End Str.

(** ** Name normalizer *)

(** A character of the class [[-_.]] of [PATTERN_DELIMITER]. *)
Definition is_delimiter (c : ascii) : bool :=
  if decide (c = "-"%char) then true
  else if decide (c = "_"%char) then true
  else if decide (c = "."%char) then true
  else false.

(** [PATTERN_DELIMITER.sub("-", s)]: every maximal run of delimiters is
    replaced by one "-". [in_run] tells that the previous character was a
    delimiter, whose run has already been replaced. *)
Fixpoint pattern_delimiter_sub (in_run : bool) (s : string) : string :=
  match s with
  | EmptyString => EmptyString
  | String c s' =>
      if is_delimiter c then
        if in_run then pattern_delimiter_sub true s'
        else String "-"%char (pattern_delimiter_sub true s')
      else String c (pattern_delimiter_sub false s')
  end.

Definition normalize_pkg_name (pkg_name : string) : string :=
  Str.lower (pattern_delimiter_sub false pkg_name).

(** ** License source selector *)

Inductive FromArg := META | CLASSIFIER | MIXED | ALL.

#[global] Instance FromArg_eq_dec : EqDecision FromArg.
Proof. solve_decision. Defined.

Definition LICENSE_UNKNOWN : string := "UNKNOWN".

(** [set(l) or {LICENSE_UNKNOWN}]: an empty set is falsy. *)
Definition set_or_unknown (l : list string) : gset string :=
  let s : gset string := list_to_set l in
  if decide (s = ∅) then {[ LICENSE_UNKNOWN ]} else s.

Definition select_license_by_source
    (from_source : FromArg) (license_classifier : list string)
    (license_meta : string) : gset string :=
  let license_classifier_set := set_or_unknown license_classifier in
  if bool_decide (from_source = CLASSIFIER)
     || (bool_decide (from_source = MIXED)
         && bool_decide (0 < length license_classifier))
  then license_classifier_set
  else {[ license_meta ]}.

(** ** Exceptions *)

Inductive exn := KeyError (key : string).

Inductive result (A : Type) :=
  | Ok (a : A)
  | Raise (e : exn).
Arguments Ok {A} a.
Arguments Raise {A} e.

Definition bind {A B} (r : result A) (k : A → result B) : result B :=
  match r with
  | Ok a => k a
  | Raise e => Raise e
  end.

Notation "x ←! r ; k" := (bind r (λ x, k))
  (at level 20, r at level 100, k at level 200, only parsing).

(** [s.remove(x)] raises [KeyError] when [x] is not in [s]. *)
Definition set_remove (x : string) (s : gset string) : result (gset string) :=
  if decide (x ∈ s) then Ok (s ∖ {[ x ]}) else Raise (KeyError x).

(** ** Case-insensitive set matcher *)

Definition case_insensitive_set_intersect (set_a set_b : gset string)
    : gset string :=
  let set_b_lower : gset string := set_map Str.lower set_b in
  set_fold (λ elem common_items,
      if decide (Str.lower elem ∈ set_b_lower)
      then {[ elem ]} ∪ common_items else common_items)
    ∅ set_a.

Definition case_insensitive_partial_match_set_intersect
    (set_a set_b : gset string) : gset string :=
  set_fold (λ item_a common_items,
      set_fold (λ item_b common_items,
          if Str.contains (Str.lower item_a) (Str.lower item_b)
          then {[ item_a ]} ∪ common_items else common_items)
        common_items set_b)
    ∅ set_a.

(** The body of the inner loop of the partial difference, for one
    [item_a], over all of [set_b]. An exception ends the loop. *)
Definition partial_diff_inner (set_b : gset string) (item_a : string)
    (uncommon_items : gset string) : result (gset string) :=
  set_fold (λ item_b r,
      uncommon_items ←! r;
      if Str.contains (Str.lower item_a) (Str.lower item_b)
      then set_remove item_a uncommon_items else Ok uncommon_items)
    (Ok uncommon_items) set_b.

Definition case_insensitive_partial_match_set_diff
    (set_a set_b : gset string) : result (gset string) :=
  set_fold (λ item_a r,
      uncommon_items ←! r; partial_diff_inner set_b item_a uncommon_items)
    (Ok set_a) set_a.

Definition case_insensitive_set_diff (set_a set_b : gset string)
    : gset string :=
  let set_b_lower : gset string := set_map Str.lower set_b in
  set_fold (λ elem uncommon_items,
      if decide (Str.lower elem ∉ set_b_lower)
      then {[ elem ]} ∪ uncommon_items else uncommon_items)
    ∅ set_a.

(** ** Packages and configuration *)

(** The entries of the [pkg_info] dictionary that the engine reads. *)
Record pkg_info := {
  name : string;
  version : string;
  license : string;
  license_classifier : list string;
}.

(** The fields of the parsed arguments that [get_packages] reads. *)
Record CustomNamespace := {
  from_ : FromArg;
  ignore_packages : list string;
  packages : list string;
  with_system : bool;
  partial_match : bool;
  fail_on : option string;
  allow_only : option string;
}.

Definition SYSTEM_PACKAGES : list string :=
  ["pip-license-audit"; "pip"; "prettytable"; "wcwidth"; "setuptools";
   "tomli"; "wheel"].

(** [set(map(str.strip, s.split(";")))] when the option holds a non-empty
    string, the empty set otherwise ([None] and the empty string are
    falsy). *)
Definition license_list (o : option string) : gset string :=
  match o with
  | None => ∅
  | Some s =>
      if decide (s = "") then ∅
      else list_to_set (Str.strip <$> Str.split ";"%char s)
  end.

Definition fail_on_licenses (args : CustomNamespace) : gset string :=
  license_list (fail_on args).

Definition allow_only_licenses (args : CustomNamespace) : gset string :=
  license_list (allow_only args).

(** ** Package filter *)

(** The three [continue] statements at the head of the package loop:
    [false] when the package is skipped. *)
Definition should_include (args : CustomNamespace) (pkg : pkg_info) : bool :=
  let ignore_pkgs_as_normalize := normalize_pkg_name <$> ignore_packages args in
  let pkgs_as_normalize := normalize_pkg_name <$> packages args in
  let pkg_name := normalize_pkg_name (name pkg) in
  let pkg_name_and_version := pkg_name +:+ ":" +:+ version pkg in
  if bool_decide (Str.lower pkg_name ∈ ignore_pkgs_as_normalize)
     || bool_decide (Str.lower pkg_name_and_version
                       ∈ ignore_pkgs_as_normalize)
  then false
  else if bool_decide (pkgs_as_normalize ≠ [])
          && bool_decide (Str.lower pkg_name ∉ pkgs_as_normalize)
  then false
  else if negb (with_system args) && bool_decide (pkg_name ∈ SYSTEM_PACKAGES)
  then false
  else true.

(** ** Policy enforcer *)

Inductive policy_kind := FailOn | AllowOnly.

Inductive outcome :=
  | Continue
  | Reject (reason : policy_kind) (offending : gset string).

(** The intersection of the fail-on block: exact unless [partial_match]. *)
Definition license_intersect (partial_match : bool)
    (license_names fail_on_licenses : gset string) : gset string :=
  if negb partial_match
  then case_insensitive_set_intersect license_names fail_on_licenses
  else case_insensitive_partial_match_set_intersect
         license_names fail_on_licenses.

(** The difference of the allow-only block: exact unless [partial_match]. *)
Definition license_diff (partial_match : bool)
    (license_names allow_only_licenses : gset string)
    : result (gset string) :=
  if negb partial_match
  then Ok (case_insensitive_set_diff license_names allow_only_licenses)
  else case_insensitive_partial_match_set_diff
         license_names allow_only_licenses.

(** The fail-on block of the loop: [Some failed_licenses] when it reaches
    [sys.exit(1)]. *)
Definition fail_on_check (license_names fail_on_licenses : gset string)
    (partial_match : bool) : option (gset string) :=
  if decide (fail_on_licenses ≠ ∅) then
    let failed_licenses :=
      license_intersect partial_match license_names fail_on_licenses in
    if decide (failed_licenses ≠ ∅) then Some failed_licenses else None
  else None.

(** The allow-only block of the loop: [Some uncommon_licenses] when it
    reaches [sys.exit(1)]. *)
Definition allow_only_check (license_names allow_only_licenses : gset string)
    (partial_match : bool) : result (option (gset string)) :=
  if decide (allow_only_licenses ≠ ∅) then
    uncommon_licenses ←!
      license_diff partial_match license_names allow_only_licenses;
    if decide (size uncommon_licenses = size license_names)
    then Ok (Some uncommon_licenses) else Ok None
  else Ok None.

(** The two policy blocks in the order of the loop body. *)
Definition enforce (license_names fail_on_licenses allow_only_licenses
    : gset string) (partial_match : bool) : result outcome :=
  match fail_on_check license_names fail_on_licenses partial_match with
  | Some failed_licenses => Ok (Reject FailOn failed_licenses)
  | None =>
      rejected ←! allow_only_check license_names allow_only_licenses
                    partial_match;
      match rejected with
      | Some uncommon_licenses => Ok (Reject AllowOnly uncommon_licenses)
      | None => Ok Continue
      end
  end.

(** ** Rendering *)

(** ["; ".join(sorted(license_set))] *)
Definition license_str (license_set : gset string) : string :=
  Str.join "; " (Str.sorted (elements license_set)).

Definition newline : string := String "010"%char "".

Definition fail_on_message (failed_licenses : gset string) (pkg : pkg_info)
    : string :=
  "fail-on license " +:+ license_str failed_licenses
  +:+ " was found for package " +:+ name pkg +:+ ":" +:+ version pkg
  +:+ newline.

Definition allow_only_message (uncommon_licenses : gset string)
    (pkg : pkg_info) : string :=
  "license " +:+ license_str uncommon_licenses
  +:+ " not in allow-only licenses was found for package "
  +:+ name pkg +:+ ":" +:+ version pkg +:+ newline.

(** ** The package loop *)

(** How a call ends: it returns, [sys.exit(code)] is called, or an
    exception is left uncaught. *)
Inductive termination :=
  | Returned
  | SysExit (code : nat)
  | Uncaught (e : exn).

(** What [get_packages] has done when it ends: the packages it yielded, in
    order, and the lines it wrote to [sys.stderr]. *)
Record run := {
  yielded : list pkg_info;
  stderr : list string;
  status : termination;
}.

Definition selected (args : CustomNamespace) (pkg : pkg_info) : gset string :=
  select_license_by_source (from_ args) (license_classifier pkg) (license pkg).

(** The loop of [get_packages] on the records that [get_pkg_info] has
    built: the filter, then the two policy blocks, then the [yield]. It is
    what the generator does when the call of [get_pkg_info] returns for
    every package and the strings are not filtered; [Dist.get_packages]
    below is the loop with that call, which can raise. *)
Fixpoint get_packages (args : CustomNamespace) (pkgs : list pkg_info) : run :=
  match pkgs with
  | [] => {| yielded := []; stderr := []; status := Returned |}
  | pkg :: pkgs' =>
      if should_include args pkg then
        let license_names := selected args pkg in
        match enforce license_names (fail_on_licenses args)
                (allow_only_licenses args) (partial_match args) with
        | Ok Continue =>
            let r := get_packages args pkgs' in
            {| yielded := pkg :: yielded r; stderr := stderr r;
               status := status r |}
        | Ok (Reject FailOn failed_licenses) =>
            {| yielded := [];
               stderr := [fail_on_message failed_licenses pkg];
               status := SysExit 1 |}
        | Ok (Reject AllowOnly uncommon_licenses) =>
            {| yielded := [];
               stderr := [allow_only_message uncommon_licenses pkg];
               status := SysExit 1 |}
        | Raise e => {| yielded := []; stderr := []; status := Uncaught e |}
        end
      else get_packages args pkgs'
  end.

(** The packages that contribute a row to the table of
    [create_licenses_table]: one row per yielded package. When
    [get_packages] exits or raises, that propagates through the loop that
    adds the rows and no table is returned. *)
Definition create_licenses_table (args : CustomNamespace)
    (pkgs : list pkg_info) : option (list pkg_info) :=
  let r := get_packages args pkgs in
  match status r with
  | Returned => Some (yielded r)
  | _ => None
  end.

(** The exit status of the process. *)
Definition exit_status (t : termination) : nat :=
  match t with
  | Returned => 0
  | SysExit code => code
  | Uncaught _ => 1
  end.

(** ** Aggregator *)

(** [collections.Counter(keys)]: one increment per element. *)
Definition Counter (keys : list string) : gmap string nat :=
  foldl (λ counts k, <[ k := S (default 0 (counts !! k)) ]> counts) ∅ keys.

(** The counter over a stream of resolved license sets. *)
Definition aggregate (license_sets : list (gset string)) : gmap string nat :=
  Counter (license_str <$> license_sets).

(** The counts of [create_summary_table]; none when [get_packages] exits or
    raises. *)
Definition create_summary_table (args : CustomNamespace)
    (pkgs : list pkg_info) : option (gmap string nat) :=
  let r := get_packages args pkgs in
  match status r with
  | Returned => Some (aggregate (selected args <$> yielded r))
  | _ => None
  end.

(** ** Vocabulary of the statements *)

(** [item_b] matches [item_a] exactly: equal lower-cased forms. *)
Definition exact_match (item_a item_b : string) : Prop :=
  Str.lower item_a = Str.lower item_b.

(** [item_b] matches [item_a] partially: the lower-cased [item_b] occurs
    in the lower-cased [item_a]. *)
Definition partial_match_of (item_a item_b : string) : Prop :=
  Str.contains (Str.lower item_a) (Str.lower item_b) = true.

#[global] Instance partial_match_of_dec item_a item_b :
  Decision (partial_match_of item_a item_b).
Proof. unfold partial_match_of. apply _. Defined.

(** The elements of [set_b] that match [item_a] partially. *)
Definition matches (item_a : string) (set_b : gset string) : gset string :=
  filter (partial_match_of item_a) set_b.

(** The elements of [X] with a partial match in [set_b]. *)
Definition matched (X set_b : gset string) : gset string :=
  filter (λ x, matches x set_b ≠ ∅) X.

(** The sum of all counters. *)
Definition total (counts : gmap string nat) : nat :=
  map_fold (λ _ n acc, n + acc) 0 counts.

(** ** Sample inputs *)

(** A package without license classifiers. *)
Definition package (n v l : string) : pkg_info :=
  {| name := n; version := v; license := l; license_classifier := [] |}.

(** Arguments with exact matching, no include list and system packages
    left out. *)
Definition options (from_source : FromArg) (ignore : list string)
    (fail allow : option string) : CustomNamespace :=
  {| from_ := from_source; ignore_packages := ignore; packages := [];
     with_system := false; partial_match := false;
     fail_on := fail; allow_only := allow |}.

(** * Further functions of [piplicenses.py] *)

(** ** More of [str] *)

Module PyStr.

(** [s.split(sep)] for a separator of any positive length: separators are
    found from left to right and do not overlap. [skip] counts the
    characters of the separator just found that are still to be passed. *)
Fixpoint split_skip (sep : string) (skip : nat) (s : string) : list string :=
  match s with
  | EmptyString => [EmptyString]
  | String c s' =>
      match skip with
      | S k => split_skip sep k s'
      | 0 =>
          if Str.startswith s sep
          then EmptyString :: split_skip sep (String.length sep - 1) s'
          else match split_skip sep 0 s' with
               | [] => [String c EmptyString]
               | f :: fs => String c f :: fs
               end
      end
  end.

Definition split (sep s : string) : list string := split_skip sep 0 s.

(** [l[-1]] for a list of strings that is not empty. *)
Definition last_item (l : list string) : string := List.last l EmptyString.

(** [s.split(sep, 1)] unpacked into two names: the text before and after
    the first [sep]; [None] when [sep] does not occur, where the unpacking
    raises [ValueError]. *)
Fixpoint split_once (sep : ascii) (s : string) : option (string * string) :=
  match s with
  | EmptyString => None
  | String c s' =>
      if decide (c = sep) then Some (EmptyString, s')
      else match split_once sep s' with
           | Some (k, v) => Some (String c k, v)
           | None => None
           end
  end.

(** [s.replace(old, new)] for one-character [old] and [new]. *)
Fixpoint replace_char (old new : ascii) (s : string) : string :=
  match s with
  | EmptyString => EmptyString
  | String c s' =>
      String (if decide (c = old) then new else c) (replace_char old new s')
  end.

(** [c.upper()] for a code point below 256. The sharp s becomes "SS"; the
    micro sign and the y with diaeresis have capitals above 255, outside
    the strings modelled here: [None]. *)
Definition upper_char (c : ascii) : option string :=
  let n := Str.ord c in
  if (n =? 181) || (n =? 255) then None
  else if n =? 223 then Some "SS"
  else if ((97 <=? n) && (n <=? 122))
          || ((224 <=? n) && (n <=? 254) && negb (n =? 247))
  then Some (String (ascii_of_nat (n - 32)) EmptyString)
  else Some (String c EmptyString).

(** [s.upper()] *)
Fixpoint upper (s : string) : option string :=
  match s with
  | EmptyString => Some EmptyString
  | String c s' =>
      match upper_char c, upper s' with
      | Some u, Some us => Some (u +:+ us)
      | _, _ => None
      end
  end.

(** Truth value of an [Optional[str]]: [None] and the empty string are
    falsy. *)
Definition truthy (v : option string) : bool :=
  match v with
  | Some s => negb (bool_decide (s = EmptyString))
  | None => false
  end.

(** [a or b] on [Optional[str]] values. *)
Definition or_else (a b : option string) : option string :=
  if truthy a then a else b.

End PyStr.

(** ** Licenses from classifiers *)

Fixpoint find_license_from_classifier (classifiers : list string)
    : list string :=
  match classifiers with
  | [] => []
  | classifier :: classifiers' =>
      if Str.startswith classifier "License" then
        let lic := PyStr.last_item (PyStr.split " :: " classifier) in
        if decide (lic ≠ "OSI Approved")
        then lic :: find_license_from_classifier classifiers'
        else find_license_from_classifier classifiers'
      else find_license_from_classifier classifiers'
  end.

(** ** Package metadata *)

(** The headers of a metadata message, in the order of the file; a header
    name may occur several times. *)
Definition Message := list (string * string).

(** [metadata.get(name)]: the value of the first header of that name,
    names compared without regard to case. *)
Fixpoint msg_get (metadata : Message) (name : string) : option string :=
  match metadata with
  | [] => None
  | (k, v) :: metadata' =>
      if decide (Str.lower k = Str.lower name) then Some v
      else msg_get metadata' name
  end.

(** [metadata.get_all(name, [])]: the values of all headers of that name. *)
Fixpoint msg_get_all (metadata : Message) (name : string) : list string :=
  match metadata with
  | [] => []
  | (k, v) :: metadata' =>
      if decide (Str.lower k = Str.lower name)
      then v :: msg_get_all metadata' name
      else msg_get_all metadata' name
  end.

(** A value, or the [ValueError] of an unpacking that finds too few
    values. *)
Inductive unpacked (A : Type) :=
  | Value (a : A)
  | ValueError.
Arguments Value {A} a.
Arguments ValueError {A}.

Definition unpacked_bind {A B} (r : unpacked A) (k : A → unpacked B)
    : unpacked B :=
  match r with
  | Value a => k a
  | ValueError => ValueError
  end.

(** The first loop of [extract_homepage]: the dictionary of the
    [Project-URL] entries, a later entry replacing an earlier one of the
    same key. *)
Fixpoint homepage_candidates (entries : list string)
    (candidates : gmap string string) : unpacked (gmap string string) :=
  match entries with
  | [] => Value candidates
  | entry :: entries' =>
      match PyStr.split_once ","%char entry with
      | Some (key, value) =>
          homepage_candidates entries'
            (<[ Str.lower (Str.strip key) := Str.strip value ]> candidates)
      | None => ValueError
      end
  end.

Definition HOMEPAGE_PRIORITY : list string :=
  ["homepage"; "source"; "repository"; "changelog"; "bug tracker"].

(** The second loop of [extract_homepage]: the first priority key that is
    in the dictionary. *)
Fixpoint homepage_by_priority (priority_keys : list string)
    (candidates : gmap string string) : option string :=
  match priority_keys with
  | [] => None
  | priority_key :: priority_keys' =>
      match candidates !! priority_key with
      | Some url => Some url
      | None => homepage_by_priority priority_keys' candidates
      end
  end.

Definition extract_homepage (metadata : Message) : unpacked (option string) :=
  match msg_get metadata "home-page" with
  | Some homepage => Value (Some homepage)
  | None =>
      unpacked_bind
        (homepage_candidates (msg_get_all metadata "Project-URL") ∅)
        (λ candidates, Value (homepage_by_priority HOMEPAGE_PRIORITY candidates))
  end.

Definition METADATA_KEYS
    : list (string * list (Message → unpacked (option string))) :=
  [ ("home-page", [extract_homepage]);
    ("author", [ (λ metadata, Value (msg_get metadata "author"));
                 (λ metadata, Value (msg_get metadata "author-email")) ]);
    ("maintainer",
       [ (λ metadata, Value (msg_get metadata "maintainer"));
         (λ metadata, Value (msg_get metadata "maintainer-email")) ]);
    ("license",
       [ (λ metadata,
            Value (PyStr.or_else (msg_get metadata "license-expression")
                     (msg_get metadata "license"))) ]);
    ("summary", [ (λ metadata, Value (msg_get metadata "summary")) ]) ].

(** The inner loop of [get_pkg_info] over the selectors of one field:
    [value] is what the last selector tried has returned. *)
Fixpoint select_field (field_selector_fns : list (Message → unpacked (option string)))
    (metadata : Message) (value : option string) : unpacked (option string) :=
  match field_selector_fns with
  | [] => Value value
  | field_selector_fn :: fns' =>
      unpacked_bind (field_selector_fn metadata) (λ value,
        if PyStr.truthy value then Value value
        else select_field fns' metadata value)
  end.

(** [value or LICENSE_UNKNOWN] *)
Definition or_unknown (value : option string) : string :=
  match PyStr.or_else value (Some LICENSE_UNKNOWN) with
  | Some s => s
  | None => LICENSE_UNKNOWN
  end.

(** The loop of [get_pkg_info] over [METADATA_KEYS]: the entries it adds to
    [pkg_info], in order. *)
Fixpoint metadata_entries
    (keys : list (string * list (Message → unpacked (option string))))
    (metadata : Message) : unpacked (list (string * string)) :=
  match keys with
  | [] => Value []
  | (field_name, field_selector_fns) :: keys' =>
      unpacked_bind (select_field field_selector_fns metadata None) (λ value,
        unpacked_bind (metadata_entries keys' metadata) (λ entries,
          Value ((field_name, or_unknown value) :: entries)))
  end.

(** The entry [license_classifier] of [pkg_info]. *)
Definition classifier_entry (metadata : Message) : list string :=
  find_license_from_classifier (msg_get_all metadata "classifier").

(** ** Enumerations of the command line *)

Inductive OrderArg := COUNT | LICENSE | NAME | AUTHOR | MAINTAINER | URL.

Inductive FormatArg :=
  | PLAIN | PLAIN_VERTICAL | MARKDOWN | RST | CONFLUENCE | HTML | JSON
  | JSON_LICENSE_FINDER | CSV.

#[global] Instance OrderArg_eq_dec : EqDecision OrderArg.
Proof. solve_decision. Defined.

#[global] Instance FormatArg_eq_dec : EqDecision FormatArg.
Proof. solve_decision. Defined.

(** [cls.__members__]: every name of the class, aliases included, in the
    order of definition, with its member. *)
Definition FromArg_members : list (string * FromArg) :=
  [ ("META", META); ("M", META); ("CLASSIFIER", CLASSIFIER);
    ("C", CLASSIFIER); ("MIXED", MIXED); ("MIX", MIXED); ("ALL", ALL) ].

Definition OrderArg_members : list (string * OrderArg) :=
  [ ("COUNT", COUNT); ("C", COUNT); ("LICENSE", LICENSE); ("L", LICENSE);
    ("NAME", NAME); ("N", NAME); ("AUTHOR", AUTHOR); ("A", AUTHOR);
    ("MAINTAINER", MAINTAINER); ("M", MAINTAINER); ("URL", URL); ("U", URL) ].

Definition FormatArg_members : list (string * FormatArg) :=
  [ ("PLAIN", PLAIN); ("P", PLAIN); ("PLAIN_VERTICAL", PLAIN_VERTICAL);
    ("MARKDOWN", MARKDOWN); ("MD", MARKDOWN); ("M", MARKDOWN);
    ("RST", RST); ("REST", RST); ("R", RST);
    ("CONFLUENCE", CONFLUENCE); ("C", CONFLUENCE);
    ("HTML", HTML); ("H", HTML); ("JSON", JSON); ("J", JSON);
    ("JSON_LICENSE_FINDER", JSON_LICENSE_FINDER);
    ("JLF", JSON_LICENSE_FINDER); ("CSV", CSV) ].

(** [member.name]: the first name defined for the member. *)
Fixpoint member_name {M} `{EqDecision M} (members : list (string * M))
    (member : M) : string :=
  match members with
  | [] => EmptyString
  | (key, m) :: members' =>
      if decide (m = member) then key else member_name members' member
  end.

(** [getattr(enum_cls, key)]: [None] stands for [AttributeError]. *)
Fixpoint member_of {M} (members : list (string * M)) (key : string)
    : option M :=
  match members with
  | [] => None
  | (k, m) :: members' =>
      if decide (k = key) then Some m else member_of members' key
  end.

(** [value.replace("-", "_").upper()]; [None] when the capitals leave the
    strings modelled here. *)
Definition value_to_enum_key (value : string) : option string :=
  PyStr.upper (PyStr.replace_char "-"%char "_"%char value).

(** [key.replace("_", "-").lower()], as [enum_key_to_value] and
    [choices_from_enum] apply it to a name. *)
Definition key_to_value (key : string) : string :=
  Str.lower (PyStr.replace_char "_"%char "-"%char key).

Definition enum_key_to_value {M} `{EqDecision M}
    (members : list (string * M)) (enum_key : M) : string :=
  key_to_value (member_name members enum_key).

Definition choices_from_enum {M} (members : list (string * M))
    : list string :=
  (λ km, key_to_value km.1) <$> members.

Definition get_value_from_enum {M} (members : list (string * M))
    (value : string) : option (option M) :=
  member_of members <$> value_to_enum_key value.

(** ** Output fields and sort column *)

(** [l.remove(x)]: the first [x] is taken out; [ValueError] when there is
    none. *)
Fixpoint list_remove (x : string) (l : list string) : unpacked (list string) :=
  match l with
  | [] => ValueError
  | y :: l' =>
      if decide (y = x) then Value l'
      else unpacked_bind (list_remove x l') (λ r, Value (y :: r))
  end.

Module Output.

(** The fields of the parsed arguments that [get_output_fields] and
    [get_sortby] read. *)
Record CustomNamespace := {
  from_ : FromArg;
  order : OrderArg;
  summary : bool;
  with_authors : bool;
  with_maintainers : bool;
  with_urls : bool;
  with_description : bool;
  no_version : bool;
  with_license_file : bool;
  no_license_path : bool;
  with_notice_file : bool;
}.

Definition DEFAULT_OUTPUT_FIELDS : list string := ["Name"; "Version"].

Definition SUMMARY_OUTPUT_FIELDS : list string := ["Count"; "License"].

(** [if b: l.append(x)] *)
Definition append_if (b : bool) (x : string) (l : list string) : list string :=
  if b then l ++ [x] else l.

Definition get_output_fields (args : CustomNamespace)
    : unpacked (list string) :=
  if summary args then Value SUMMARY_OUTPUT_FIELDS
  else
    let output_fields := DEFAULT_OUTPUT_FIELDS in
    let output_fields :=
      if decide (from_ args = ALL)
      then (output_fields ++ ["License-Metadata"]) ++ ["License-Classifier"]
      else output_fields ++ ["License"] in
    let output_fields := append_if (with_authors args) "Author" output_fields in
    let output_fields :=
      append_if (with_maintainers args) "Maintainer" output_fields in
    let output_fields := append_if (with_urls args) "URL" output_fields in
    let output_fields :=
      append_if (with_description args) "Description" output_fields in
    unpacked_bind
      (if no_version args then list_remove "Version" output_fields
       else Value output_fields)
      (λ output_fields,
         if with_license_file args then
           let output_fields :=
             append_if (negb (no_license_path args)) "LicenseFile"
               output_fields in
           let output_fields := output_fields ++ ["LicenseText"] in
           if with_notice_file args then
             let output_fields := output_fields ++ ["NoticeText"] in
             Value (append_if (negb (no_license_path args)) "NoticeFile"
                      output_fields)
           else Value output_fields
         else Value output_fields).

Definition get_sortby (args : CustomNamespace) : string :=
  if summary args && bool_decide (order args = COUNT) then "Count"
  else if summary args || bool_decide (order args = LICENSE) then "License"
  else if bool_decide (order args = NAME) then "Name"
  else if bool_decide (order args = AUTHOR) && with_authors args
  then "Author"
  else if bool_decide (order args = MAINTAINER) && with_maintainers args
  then "Maintainer"
  else if bool_decide (order args = URL) && with_urls args then "URL"
  else "Name".

End Output.

(** ** Rows of the license table *)

(** The dictionary that [get_pkg_info] returns has a fixed set of keys; it
    is a record here, with the entries read by the policy checks kept in
    [info]. *)
Record pkg_dict := {
  info : pkg_info;
  namever : string;
  licensefile : string;
  licensetext : string;
  noticefile : string;
  noticetext : string;
  home_page : string;
  author : string;
  maintainer : string;
  summary : string;
}.

(** A value of the dictionary: a string, or the list under
    [license_classifier]. *)
Inductive pkg_value :=
  | VStr (s : string)
  | VList (l : list string).

Definition PKG_INFO_KEYS : list string :=
  ["name"; "version"; "namever"; "licensefile"; "licensetext"; "noticefile";
   "noticetext"; "home-page"; "author"; "maintainer"; "license"; "summary";
   "license_classifier"].

(** [pkg[key]] *)
Definition pkg_item (pkg : pkg_dict) (key : string) : result pkg_value :=
  if decide (key = "name") then Ok (VStr (name (info pkg)))
  else if decide (key = "version") then Ok (VStr (version (info pkg)))
  else if decide (key = "namever") then Ok (VStr (namever pkg))
  else if decide (key = "licensefile") then Ok (VStr (licensefile pkg))
  else if decide (key = "licensetext") then Ok (VStr (licensetext pkg))
  else if decide (key = "noticefile") then Ok (VStr (noticefile pkg))
  else if decide (key = "noticetext") then Ok (VStr (noticetext pkg))
  else if decide (key = "home-page") then Ok (VStr (home_page pkg))
  else if decide (key = "author") then Ok (VStr (author pkg))
  else if decide (key = "maintainer") then Ok (VStr (maintainer pkg))
  else if decide (key = "license") then Ok (VStr (license (info pkg)))
  else if decide (key = "summary") then Ok (VStr (summary pkg))
  else if decide (key = "license_classifier")
  then Ok (VList (license_classifier (info pkg)))
  else Raise (KeyError key).

Definition FIELDS_TO_METADATA_KEYS : list (string * string) :=
  [ ("URL", "home-page"); ("Description", "summary");
    ("License-Metadata", "license");
    ("License-Classifier", "license_classifier");
    ("License-Expression", "license") ].

(** [d[key]] on a dictionary given as a list of items. *)
Fixpoint dict_item (d : list (string * string)) (key : string) : result string :=
  match d with
  | [] => Raise (KeyError key)
  | (k, v) :: d' => if decide (k = key) then Ok v else dict_item d' key
  end.

(** One cell of a row of [create_licenses_table]. *)
Definition row_cell (from_source : FromArg) (pkg : pkg_dict) (field : string)
    : result pkg_value :=
  if decide (field = "License") then
    Ok (VStr (license_str
                (select_license_by_source from_source
                   (license_classifier (info pkg)) (license (info pkg)))))
  else if decide (field = "License-Classifier") then
    let joined := Str.join "; " (Str.sorted (license_classifier (info pkg))) in
    Ok (VStr (if decide (joined = EmptyString) then LICENSE_UNKNOWN else joined))
  else if decide (Str.lower field ∈ PKG_INFO_KEYS) then
    pkg_item pkg (Str.lower field)
  else
    key ←! dict_item FIELDS_TO_METADATA_KEYS field;
    pkg_item pkg key.

(** A row of [create_licenses_table]: its cells in the order of
    [output_fields]; the first exception ends it. *)
Fixpoint table_row (from_source : FromArg) (pkg : pkg_dict)
    (output_fields : list string) : result (list pkg_value) :=
  match output_fields with
  | [] => Ok []
  | field :: output_fields' =>
      cell ←! row_cell from_source pkg field;
      row ←! table_row from_source pkg output_fields';
      Ok (cell :: row)
  end.

(** ** Checks over all settings of the flags *)

Definition all_bool (f : bool → bool) : bool := f true && f false.

Definition all_FromArg (f : FromArg → bool) : bool :=
  f META && f CLASSIFIER && f MIXED && f ALL.

Definition all_OrderArg (f : OrderArg → bool) : bool :=
  f COUNT && f LICENSE && f NAME && f AUTHOR && f MAINTAINER && f URL.

(** [f] on every value of the arguments read by [get_output_fields] and
    [get_sortby]. *)
Definition all_args (f : Output.CustomNamespace → bool) : bool :=
  all_FromArg (λ fr, all_OrderArg (λ o, all_bool (λ s, all_bool (λ a,
  all_bool (λ m, all_bool (λ u, all_bool (λ d, all_bool (λ nv,
  all_bool (λ lf, all_bool (λ nlp, all_bool (λ nf,
    f {| Output.from_ := fr; Output.order := o; Output.summary := s;
         Output.with_authors := a; Output.with_maintainers := m;
         Output.with_urls := u; Output.with_description := d;
         Output.no_version := nv; Output.with_license_file := lf;
         Output.no_license_path := nlp;
         Output.with_notice_file := nf |}))))))))))).

(** Every field name that [get_output_fields] can give in listing mode. *)
Definition LISTING_FIELDS : list string :=
  ["Name"; "Version"; "License"; "License-Metadata"; "License-Classifier";
   "Author"; "Maintainer"; "URL"; "Description"; "LicenseFile";
   "LicenseText"; "NoticeText"; "NoticeFile"].

(** The fields are returned, without repetition; in summary mode they are
    Count and License; in listing mode Name comes first, all are listing
    fields, and Version is there unless [no_version] is set. *)
Definition fields_check (args : Output.CustomNamespace) : bool :=
  match Output.get_output_fields args with
  | Value fields =>
      bool_decide (NoDup fields)
      && (if Output.summary args
          then bool_decide (fields = ["Count"; "License"])
          else bool_decide (head fields = Some "Name")
               && bool_decide (fields ⊆ LISTING_FIELDS)
               && eqb (bool_decide ("Version" ∈ fields))
                    (negb (Output.no_version args)))
  | ValueError => false
  end.

(** The sort column is one of the fields, unless a listing under ALL is
    ordered by license. *)
Definition sortby_check (args : Output.CustomNamespace) : bool :=
  match Output.get_output_fields args with
  | Value fields =>
      eqb (bool_decide (Output.get_sortby args ∈ fields))
        (negb (negb (Output.summary args)
               && bool_decide (Output.order args = LICENSE)
               && bool_decide (Output.from_ args = ALL)))
  | ValueError => false
  end.

(** ** Characters of enumeration names *)

(** A capital letter, a digit or an underscore. *)
Definition is_enum_key_char (c : ascii) : bool :=
  let n := Str.ord c in
  ((65 <=? n) && (n <=? 90)) || ((48 <=? n) && (n <=? 57)) || (n =? 95).

(** [f] holds of every character of [s]. *)
Fixpoint string_forallb (f : ascii → bool) (s : string) : bool :=
  match s with
  | EmptyString => true
  | String c s' => f c && string_forallb f s'
  end.

(** ** CSV cells *)

Definition dquote : ascii := ascii_of_nat 34.

(** [esc_quotes] of [CSVPrettyTable.get_string], on a [str]: every double
    quote is doubled. *)
Fixpoint esc_quotes (val : string) : string :=
  match val with
  | EmptyString => EmptyString
  | String c val' =>
      if decide (c = dquote)
      then String dquote (String dquote (esc_quotes val'))
      else String c (esc_quotes val')
  end.

(** The line of one row: every cell escaped and put between double quotes,
    the cells joined by commas. *)
Definition csv_line (row : list string) : string :=
  Str.join ","
    ((λ val, String dquote (esc_quotes val +:+ String dquote EmptyString))
       <$> row).

(** The number of double quotes in a string. *)
Fixpoint count_quotes (s : string) : nat :=
  match s with
  | EmptyString => 0
  | String c s' => (if decide (c = dquote) then 1 else 0) + count_quotes s'
  end.

(** ** The package loop with [get_pkg_info] *)

(** [for x in l: ys.append(f(x))], ended by the first exception. *)
Fixpoint unpacked_mapM {A B} (f : A → unpacked B) (l : list A)
    : unpacked (list B) :=
  match l with
  | [] => Value []
  | x :: l' =>
      unpacked_bind (f x) (λ y,
        unpacked_bind (unpacked_mapM f l') (λ ys, Value (y :: ys)))
  end.

(** An installed distribution as [get_packages] reads it: its metadata
    message, the values of the headers Name and Version (core metadata
    requires both), and what each of the two calls of
    [get_pkg_included_file] returns, a path and a text. Reading the files
    is outside the model. *)
Record Distribution := {
  dist_metadata : Message;
  dist_name : string;
  dist_version : string;
  dist_license_file : string * string;
  dist_notice_file : string * string;
}.

Module Dist.

(** The exceptions of the loop. *)
Inductive exc :=
  | KeyErr (key : string)
  | ValueErr.

Inductive ending :=
  | Returned
  | SysExit (code : nat)
  | Uncaught (e : exc).

(** What the generator has done when it ends: the dictionaries it yielded,
    in order, and the lines it wrote to [sys.stderr]. *)
Record run := {
  yielded : list pkg_dict;
  stderr : list string;
  status : ending;
}.

(** The value that the loop over [METADATA_KEYS] has stored under [key]. *)
Definition entry (entries : list (string * string)) (key : string) : string :=
  match dict_item entries key with
  | Ok value => value
  | Raise _ => EmptyString
  end.

(** The last block of [get_pkg_info]: [filter_string] on every string of
    the dictionary and on every item of its list. *)
Definition filter_dict (filter_string : string → string) (d : pkg_dict)
    : pkg_dict :=
  {| info :=
       {| name := filter_string (name (info d));
          version := filter_string (version (info d));
          license := filter_string (license (info d));
          license_classifier :=
            filter_string <$> license_classifier (info d) |};
     namever := filter_string (namever d);
     licensefile := filter_string (licensefile d);
     licensetext := filter_string (licensetext d);
     noticefile := filter_string (noticefile d);
     noticetext := filter_string (noticetext d);
     home_page := filter_string (home_page d);
     author := filter_string (author d);
     maintainer := filter_string (maintainer d);
     summary := filter_string (summary d) |}.

(** [get_pkg_info]. [filter_strings] is [None] when [args.filter_strings]
    is not set, and otherwise the function
    [item.encode(code_page, errors="ignore").decode(code_page)] of the code
    page chosen, which the codec defines. *)
Definition get_pkg_info (filter_strings : option (string → string))
    (pkg : Distribution) : unpacked pkg_dict :=
  unpacked_bind (metadata_entries METADATA_KEYS (dist_metadata pkg))
    (λ entries,
       let pkg_info :=
         {| info :=
              {| name := dist_name pkg;
                 version := dist_version pkg;
                 license := entry entries "license";
                 license_classifier := classifier_entry (dist_metadata pkg) |};
            namever := dist_name pkg +:+ " " +:+ dist_version pkg;
            licensefile := (dist_license_file pkg).1;
            licensetext := (dist_license_file pkg).2;
            noticefile := (dist_notice_file pkg).1;
            noticetext := (dist_notice_file pkg).2;
            home_page := entry entries "home-page";
            author := entry entries "author";
            maintainer := entry entries "maintainer";
            summary := entry entries "summary" |} in
       Value (match filter_strings with
              | Some filter_string => filter_dict filter_string pkg_info
              | None => pkg_info
              end)).

(** The three [continue] statements read the name and the version of the
    distribution, not the dictionary. *)
Definition included (args : CustomNamespace) (pkg : Distribution) : bool :=
  should_include args
    {| name := dist_name pkg; version := dist_version pkg;
       license := EmptyString; license_classifier := [] |}.

Fixpoint get_packages (args : CustomNamespace)
    (filter_strings : option (string → string)) (pkgs : list Distribution)
    : run :=
  match pkgs with
  | [] => {| yielded := []; stderr := []; status := Returned |}
  | pkg :: pkgs' =>
      if included args pkg then
        match get_pkg_info filter_strings pkg with
        | ValueError =>
            {| yielded := []; stderr := []; status := Uncaught ValueErr |}
        | Value pkg_info =>
            let license_names := selected args (info pkg_info) in
            match enforce license_names (fail_on_licenses args)
                    (allow_only_licenses args) (partial_match args) with
            | Ok Continue =>
                let r := get_packages args filter_strings pkgs' in
                {| yielded := pkg_info :: yielded r; stderr := stderr r;
                   status := status r |}
            | Ok (Reject FailOn failed_licenses) =>
                {| yielded := [];
                   stderr := [fail_on_message failed_licenses (info pkg_info)];
                   status := SysExit 1 |}
            | Ok (Reject AllowOnly uncommon_licenses) =>
                {| yielded := [];
                   stderr :=
                     [allow_only_message uncommon_licenses (info pkg_info)];
                   status := SysExit 1 |}
            | Raise (KeyError key) =>
                {| yielded := []; stderr := [];
                   status := Uncaught (KeyErr key) |}
            end
        end
      else get_packages args filter_strings pkgs'
  end.

(** The dictionaries that get a row in the table of
    [create_licenses_table]; no table when the generator exits or
    raises. *)
Definition create_licenses_table (args : CustomNamespace)
    (filter_strings : option (string → string)) (pkgs : list Distribution)
    : option (list pkg_dict) :=
  let r := get_packages args filter_strings pkgs in
  match status r with
  | Returned => Some (yielded r)
  | _ => None
  end.

(** The counts of [create_summary_table]. *)
Definition create_summary_table (args : CustomNamespace)
    (filter_strings : option (string → string)) (pkgs : list Distribution)
    : option (gmap string nat) :=
  let r := get_packages args filter_strings pkgs in
  match status r with
  | Returned =>
      Some (aggregate ((λ d, selected args (info d)) <$> yielded r))
  | _ => None
  end.

(** The exit status of the process: an uncaught exception ends the
    interpreter with status 1. *)
Definition exit_status (t : ending) : nat :=
  match t with
  | Returned => 0
  | SysExit code => code
  | Uncaught _ => 1
  end.

(** A distribution whose metadata holds the three headers given, without
    license or notice file. *)
Definition dist (n v l : string) : Distribution :=
  {| dist_metadata := [("Name", n); ("Version", v); ("License", l)];
     dist_name := n; dist_version := v;
     dist_license_file := (LICENSE_UNKNOWN, LICENSE_UNKNOWN);
     dist_notice_file := (LICENSE_UNKNOWN, LICENSE_UNKNOWN) |}.

(** The dictionary that [get_pkg_info] builds for such a distribution when
    the license given is not empty. *)
Definition built (n v l : string) : pkg_dict :=
  {| info := package n v l; namever := n +:+ " " +:+ v;
     licensefile := LICENSE_UNKNOWN; licensetext := LICENSE_UNKNOWN;
     noticefile := LICENSE_UNKNOWN; noticetext := LICENSE_UNKNOWN;
     home_page := LICENSE_UNKNOWN; author := LICENSE_UNKNOWN;
     maintainer := LICENSE_UNKNOWN; summary := LICENSE_UNKNOWN |}.

End Dist.

(** ** Properties of the name normalizer *)

Section Normalizer.

Lemma lower_char_idem c : Str.lower_char (Str.lower_char c) = Str.lower_char c.
Proof. by destruct c as [[] [] [] [] [] [] [] []]. Qed.

Lemma lower_idem s : Str.lower (Str.lower s) = Str.lower s.
Proof.
  induction s as [|c s IH]; simpl; [done|]. by rewrite lower_char_idem, IH.
Qed.

Lemma is_delimiter_lower_char c :
  is_delimiter (Str.lower_char c) = is_delimiter c.
Proof. by destruct c as [[] [] [] [] [] [] [] []]. Qed.

(** Lower-casing commutes with the substitution: it neither creates nor
    destroys a delimiter. *)
Lemma sub_lower b s :
  pattern_delimiter_sub b (Str.lower s) = Str.lower (pattern_delimiter_sub b s).
Proof.
  revert b. induction s as [|c s IH]; intros b; simpl; [done|].
  rewrite is_delimiter_lower_char.
  destruct (is_delimiter c); [destruct b|]; simpl; by rewrite ?IH.
Qed.

(** After a substitution no run is left to shorten. *)
Lemma sub_sub s :
  pattern_delimiter_sub false (pattern_delimiter_sub false s)
    = pattern_delimiter_sub false s
  ∧ ∀ b, pattern_delimiter_sub b (pattern_delimiter_sub true s)
         = pattern_delimiter_sub true s.
Proof.
  induction s as [|c s [IH1 IH2]]; simpl; [done|].
  destruct (is_delimiter c) eqn:Hc; simpl.
  - split; [by rewrite IH2 | done].
  - rewrite Hc. split; [by rewrite IH1 | intros b; by rewrite IH1].
Qed.

End Normalizer.

(** C8. The name normalizer is idempotent, and it sends "My_Pkg.Name" to
    "my-pkg-name". *)
Theorem normalize_pkg_name_idempotent :
  (∀ x, normalize_pkg_name (normalize_pkg_name x) = normalize_pkg_name x)
  ∧ normalize_pkg_name "My_Pkg.Name" = "my-pkg-name".
Proof.
  split; [|reflexivity].
  intros x. unfold normalize_pkg_name.
  rewrite sub_lower, lower_idem. f_equal. apply sub_sub.
Qed.

(** ** Properties of the license source selector *)

Section Selector.

Lemma list_to_set_empty_inv (l : list string) :
  (list_to_set l : gset string) = ∅ → l = [].
Proof.
  destruct l as [|x l]; [done|]. intros H.
  assert (x ∈ (∅ : gset string)) as []%not_elem_of_empty.
  rewrite <- H. set_solver.
Qed.

Lemma set_or_unknown_nil : set_or_unknown [] = {[ LICENSE_UNKNOWN ]}.
Proof. reflexivity. Qed.

Lemma set_or_unknown_cons x l :
  set_or_unknown (x :: l) = list_to_set (x :: l).
Proof.
  unfold set_or_unknown. case_decide as H; [|done].
  by apply list_to_set_empty_inv in H.
Qed.

Lemma set_or_unknown_nonempty l : set_or_unknown l ≠ ∅.
Proof.
  destruct l as [|x l].
  - rewrite set_or_unknown_nil. set_solver.
  - rewrite set_or_unknown_cons. set_solver.
Qed.

End Selector.

(** C6. CLASSIFIER, and MIXED with classifiers, give the set of the
    classifier licenses, with UNKNOWN standing in for an empty list; META,
    and MIXED without classifiers, give the singleton of the declared
    license. *)
Theorem select_license_by_source_cases :
  (∀ m, select_license_by_source CLASSIFIER [] m = {[ "UNKNOWN" ]})
  ∧ (∀ x l m, select_license_by_source CLASSIFIER (x :: l) m
              = list_to_set (x :: l))
  ∧ (∀ x l m, select_license_by_source MIXED (x :: l) m
              = list_to_set (x :: l))
  ∧ (∀ l m, select_license_by_source META l m = {[ m ]})
  ∧ (∀ m, select_license_by_source MIXED [] m = {[ m ]})
  ∧ select_license_by_source MIXED [] "MIT" = {[ "MIT" ]}
  ∧ select_license_by_source MIXED ["Apache-2.0"] "MIT" = {[ "Apache-2.0" ]}
  ∧ select_license_by_source CLASSIFIER [] "MIT" = {[ "UNKNOWN" ]}.
Proof.
  repeat split; intros; unfold select_license_by_source; simpl;
    rewrite ?set_or_unknown_cons; done.
Qed.

(** C10. Whatever the strategy, the classifier list and the declared
    license, the selected set is not empty. *)
Theorem select_license_by_source_nonempty
    from_source license_classifier license_meta :
  select_license_by_source from_source license_classifier license_meta ≠ ∅
  ∧ 0 < size (select_license_by_source from_source license_classifier
                license_meta).
Proof.
  assert (select_license_by_source from_source license_classifier
            license_meta ≠ ∅) as Hne.
  { unfold select_license_by_source.
    destruct (_ || _); [apply set_or_unknown_nonempty | set_solver]. }
  split; [done|].
  destruct (decide (size (select_license_by_source from_source
                            license_classifier license_meta) = 0)) as [H0|H0];
    [|lia].
  by apply size_empty_inv, leibniz_equiv in H0.
Qed.

(** ** Properties of the case-insensitive set matcher *)

Section Matcher.

Implicit Types set_a set_b acc : gset string.

Lemma startswith_refl s : Str.startswith s s = true.
Proof. induction s as [|c s IH]; simpl; [done|]. by case_decide. Qed.

Lemma contains_refl s : Str.contains s s = true.
Proof.
  destruct s; simpl; [done|]. rewrite decide_True by done.
  by rewrite startswith_refl.
Qed.

Lemma exact_match_partial item_a item_b :
  exact_match item_a item_b → partial_match_of item_a item_b.
Proof.
  unfold exact_match, partial_match_of. intros ->. apply contains_refl.
Qed.

Lemma elem_of_set_b_lower s set_b :
  s ∈ (set_map Str.lower set_b : gset string)
  ↔ ∃ item_b, item_b ∈ set_b ∧ s = Str.lower item_b.
Proof. rewrite elem_of_map. naive_solver. Qed.

Lemma elem_of_case_insensitive_set_intersect x set_a set_b :
  x ∈ case_insensitive_set_intersect set_a set_b
  ↔ x ∈ set_a ∧ ∃ item_b, item_b ∈ set_b ∧ exact_match x item_b.
Proof.
  unfold case_insensitive_set_intersect, exact_match.
  setoid_rewrite <- elem_of_set_b_lower.
  generalize (set_map Str.lower set_b : gset string). intros lowered.
  revert x.
  apply (set_fold_ind_L
           (λ r X, ∀ x, x ∈ r ↔ x ∈ X ∧ Str.lower x ∈ lowered)).
  - set_solver.
  - intros y X r Hy IH x. case_decide; set_solver.
Qed.

Lemma elem_of_case_insensitive_set_diff x set_a set_b :
  x ∈ case_insensitive_set_diff set_a set_b
  ↔ x ∈ set_a ∧ ¬ ∃ item_b, item_b ∈ set_b ∧ exact_match x item_b.
Proof.
  unfold case_insensitive_set_diff, exact_match.
  setoid_rewrite <- elem_of_set_b_lower.
  generalize (set_map Str.lower set_b : gset string). intros lowered.
  revert x.
  apply (set_fold_ind_L
           (λ r X, ∀ x, x ∈ r ↔ x ∈ X ∧ Str.lower x ∉ lowered)).
  - set_solver.
  - intros y X r Hy IH x. case_decide; set_solver.
Qed.

Lemma elem_of_partial_intersect_inner x item_a acc set_b :
  x ∈ set_fold (λ item_b common_items,
          if Str.contains (Str.lower item_a) (Str.lower item_b)
          then {[ item_a ]} ∪ common_items else common_items) acc set_b
  ↔ x ∈ acc
    ∨ (x = item_a
       ∧ ∃ item_b, item_b ∈ set_b ∧ partial_match_of item_a item_b).
Proof.
  unfold partial_match_of. revert x.
  apply (set_fold_ind_L (λ r X, ∀ x, x ∈ r ↔
    x ∈ acc ∨ (x = item_a ∧ ∃ item_b, item_b ∈ X
                 ∧ Str.contains (Str.lower item_a) (Str.lower item_b)
                   = true))).
  - set_solver.
  - intros y X r Hy IH x.
    destruct (Str.contains (Str.lower item_a) (Str.lower y)) eqn:Hc.
    + rewrite elem_of_union, elem_of_singleton, IH. split.
      * intros [->|[?|[-> ?]]]; [right|by left|right]; split; try done.
        -- exists y. set_solver.
        -- set_solver.
      * intros [?|[-> ?]]; [right; by left | by left].
    + rewrite IH. split.
      * intros [?|[-> (b & Hb & Hm)]]; [by left|right].
        split; [done|]. exists b. set_solver.
      * intros [?|[-> (b & Hb & Hm)]]; [by left|right].
        split; [done|]. exists b. split; [|done].
        apply elem_of_union in Hb as [->%elem_of_singleton|]; [congruence|done].
Qed.

Lemma elem_of_case_insensitive_partial_match_set_intersect x set_a set_b :
  x ∈ case_insensitive_partial_match_set_intersect set_a set_b
  ↔ x ∈ set_a ∧ ∃ item_b, item_b ∈ set_b ∧ partial_match_of x item_b.
Proof.
  unfold case_insensitive_partial_match_set_intersect. revert x.
  apply (set_fold_ind_L (λ r X, ∀ x, x ∈ r ↔
    x ∈ X ∧ ∃ item_b, item_b ∈ set_b ∧ partial_match_of x item_b)).
  - set_solver.
  - intros y X r Hy IH x.
    rewrite elem_of_partial_intersect_inner, IH. set_solver.
Qed.

(** *** The partial difference *)

Lemma matches_empty_iff item_a set_b :
  matches item_a set_b = ∅
  ↔ ¬ ∃ item_b, item_b ∈ set_b ∧ partial_match_of item_a item_b.
Proof.
  unfold matches. split.
  - intros H (y & Hy & Hm).
    assert (y ∈ (∅ : gset string)) as []%not_elem_of_empty.
    rewrite <- H. by apply elem_of_filter.
  - intros H. apply set_eq. intros y. rewrite elem_of_filter. set_solver.
Qed.

Lemma size_matches_union y item_a set_b :
  y ∉ set_b →
  size (matches item_a ({[ y ]} ∪ set_b))
  = (if decide (partial_match_of item_a y) then 1 else 0)
    + size (matches item_a set_b).
Proof.
  intros Hy. unfold matches. rewrite filter_union_L; [|apply _].
  rewrite size_union by (intros z; rewrite !elem_of_filter; set_solver).
  f_equal. case_decide.
  - rewrite filter_singleton_True_L; [apply size_singleton | apply _ | done].
  - rewrite filter_singleton_False_L; [apply size_empty | apply _ | done].
Qed.

Lemma set_remove_removed item_a acc :
  bind (set_remove item_a acc) (set_remove item_a) = Raise (KeyError item_a).
Proof.
  unfold set_remove. case_decide; simpl; [|done].
  rewrite decide_False; [done | set_solver].
Qed.

(** One pass of the inner loop: no match leaves the set alone, one match
    removes [item_a], a second match removes it again and raises. *)
Lemma partial_diff_inner_size set_b item_a acc :
  partial_diff_inner set_b item_a acc
  = match size (matches item_a set_b) with
    | 0 => Ok acc
    | 1 => set_remove item_a acc
    | _ => Raise (KeyError item_a)
    end.
Proof.
  unfold partial_diff_inner.
  apply (set_fold_ind_L (λ r X, r =
    match size (matches item_a X) with
    | 0 => Ok acc
    | 1 => set_remove item_a acc
    | _ => Raise (KeyError item_a)
    end)).
  - done.
  - intros y X r Hy ->. rewrite size_matches_union by done.
    destruct (decide (partial_match_of item_a y)) as [Hm|Hm]; simpl.
    + unfold partial_match_of in Hm. rewrite Hm.
      destruct (size (matches item_a X)) as [|[|n]]; simpl; [done| |done].
      apply set_remove_removed.
    + unfold partial_match_of in Hm. apply not_true_is_false in Hm.
      rewrite Hm.
      by destruct (match size (matches item_a X) with
                   | 0 => _ | _ => _ end).
Qed.

Lemma partial_diff_fold_upto set_a set_b X :
  X ⊆ set_a →
  let r := set_fold (λ item_a r,
               uncommon_items ←! r;
               partial_diff_inner set_b item_a uncommon_items)
             (Ok set_a) X in
  (set_Forall (λ x, size (matches x set_b) ≤ 1) X →
   r = Ok (set_a ∖ matched X set_b))
  ∧ (set_Exists (λ x, 2 ≤ size (matches x set_b)) X →
     ∃ k, r = Raise (KeyError k) ∧ k ∈ X ∧ 2 ≤ size (matches k set_b)).
Proof.
  simpl. revert X.
  apply (set_fold_ind_L (λ r X, X ⊆ set_a →
    (set_Forall (λ x, size (matches x set_b) ≤ 1) X →
     r = Ok (set_a ∖ matched X set_b))
    ∧ (set_Exists (λ x, 2 ≤ size (matches x set_b)) X →
       ∃ k, r = Raise (KeyError k) ∧ k ∈ X ∧ 2 ≤ size (matches k set_b)))).
  - intros _. split.
    + intros _. f_equal. unfold matched. rewrite filter_empty_L; try apply _. set_solver.
    + intros (x & []%not_elem_of_empty & _).
  - intros y X r Hy IH Hsub.
    destruct IH as [IHok IHraise]; [set_solver|].
    assert (y ∈ set_a) as Hya by set_solver.
    split.
    + intros Hall. rewrite IHok; [|intros x Hx; apply Hall; set_solver].
      simpl. rewrite partial_diff_inner_size.
      assert (size (matches y set_b) ≤ 1) as Hle by (apply Hall; set_solver).
      unfold matched. rewrite filter_union_L; try apply _.
      destruct (size (matches y set_b)) as [|[|n]] eqn:Hsz; [| |lia].
      * f_equal. rewrite filter_singleton_False_L; try apply _; [set_solver|].
        intros Hne. apply Hne. by apply size_empty_inv, leibniz_equiv in Hsz.
      * unfold set_remove. rewrite decide_True.
        2:{ apply elem_of_difference. split; [done|].
            rewrite elem_of_filter. set_solver. }
        f_equal. rewrite filter_singleton_True_L; try apply _; [set_solver|].
        intros Hemp. rewrite Hemp, size_empty in Hsz. lia.
    + intros (x & Hx & Hx2).
      destruct (decide (set_Exists (λ x, 2 ≤ size (matches x set_b)) X))
        as [Hex|Hnex].
      * destruct (IHraise Hex) as (k & -> & Hk & Hk2).
        exists k. split; [done|]. split; [set_solver|done].
      * assert (set_Forall (λ x, size (matches x set_b) ≤ 1) X) as Hall.
        { intros z Hz. destruct (decide (size (matches z set_b) ≤ 1));
            [done|]. exfalso. apply Hnex. exists z. split; [done|lia]. }
        assert (x = y) as ->.
        { apply elem_of_union in Hx as [?%elem_of_singleton|Hx]; [done|].
          specialize (Hall x Hx). simpl in Hall. lia. }
        rewrite (IHok Hall). simpl. rewrite partial_diff_inner_size.
        exists y. split; [|split; [set_solver|done]].
        destruct (size (matches y set_b)) as [|[|n]]; [lia|lia|done].
Qed.

Lemma partial_diff_fold set_a set_b :
  (set_Forall (λ x, size (matches x set_b) ≤ 1) set_a →
   case_insensitive_partial_match_set_diff set_a set_b
   = Ok (set_a ∖ matched set_a set_b))
  ∧ (set_Exists (λ x, 2 ≤ size (matches x set_b)) set_a →
     ∃ k, case_insensitive_partial_match_set_diff set_a set_b
          = Raise (KeyError k)
          ∧ k ∈ set_a ∧ 2 ≤ size (matches k set_b)).
Proof. by apply (partial_diff_fold_upto set_a set_b set_a). Qed.

(** When no element of [set_a] has two partial matches in [set_b], the
    partial difference returns the elements of [set_a] without a match. *)
Lemma partial_diff_returns set_a set_b :
  set_Forall (λ x, size (matches x set_b) ≤ 1) set_a →
  ∃ uncommon_items,
    case_insensitive_partial_match_set_diff set_a set_b = Ok uncommon_items
    ∧ ∀ x, x ∈ uncommon_items
           ↔ x ∈ set_a
             ∧ ¬ ∃ item_b, item_b ∈ set_b ∧ partial_match_of x item_b.
Proof.
  intros Hall. eexists. split; [by apply partial_diff_fold|].
  intros x. unfold matched.
  rewrite elem_of_difference, elem_of_filter, <- matches_empty_iff.
  split.
  - intros [Ha Hn]. split; [done|].
    destruct (decide (matches x set_b = ∅)); [done|]. exfalso. by apply Hn.
  - intros [Ha He]. split; [done|]. intros [Hne _]. by apply Hne.
Qed.

(** When an element of [set_a] has two partial matches in [set_b], the
    partial difference raises [KeyError]. *)
Lemma partial_diff_raises set_a set_b :
  set_Exists (λ x, 2 ≤ size (matches x set_b)) set_a →
  ∃ k, case_insensitive_partial_match_set_diff set_a set_b
       = Raise (KeyError k).
Proof. intros H. apply partial_diff_fold in H as (k & ? & _). by exists k. Qed.

End Matcher.

(** C7. The partial intersection contains the exact intersection: an
    element whose lower-cased form equals that of an element of [set_b]
    also contains it as a substring. *)
Theorem partial_intersect_superset set_a set_b :
  case_insensitive_set_intersect set_a set_b
  ⊆ case_insensitive_partial_match_set_intersect set_a set_b.
Proof.
  intros x.
  rewrite elem_of_case_insensitive_set_intersect,
    elem_of_case_insensitive_partial_match_set_intersect.
  intros [Ha (item_b & Hb & Hm)]. split; [done|].
  exists item_b. split; [done|]. by apply exact_match_partial.
Qed.

(** C3. The partial difference is not total: on an element of [set_a] that
    contains two elements of [set_b] the second [remove] raises [KeyError],
    where the claim has it return the empty set; the partial intersection
    returns on the same input. *)
Theorem partial_diff_not_total :
  case_insensitive_partial_match_set_diff
    {[ "Apache Software License" ]} {[ "Apache"; "Software" ]}
  = Raise (KeyError "Apache Software License")
  ∧ case_insensitive_partial_match_set_intersect
      {[ "Apache Software License" ]} {[ "Apache"; "Software" ]}
    = {[ "Apache Software License" ]}.
Proof. split; vm_compute; reflexivity. Qed.

(** ** Properties of the policy enforcer *)

Section Enforcer.

Implicit Types license_names fail_on_licenses allow_only_licenses : gset string.

(** An empty fail-on list never rejects. *)
Lemma fail_on_check_empty license_names partial_match :
  fail_on_check license_names ∅ partial_match = None.
Proof. unfold fail_on_check. by rewrite decide_False by (intros H; by apply H). Qed.

(** The fail-on block exits exactly when the intersection is not empty,
    with the intersection as the offending licenses. *)
Lemma fail_on_check_Some license_names fail_on_licenses partial_match :
  fail_on_licenses ≠ ∅ →
  license_intersect partial_match license_names fail_on_licenses ≠ ∅ →
  fail_on_check license_names fail_on_licenses partial_match
  = Some (license_intersect partial_match license_names fail_on_licenses).
Proof. intros Hf Hi. unfold fail_on_check. by rewrite !decide_True. Qed.

(** A fail-on match rejects whatever the allow-only list is. *)
Lemma enforce_fail_on_first license_names fail_on_licenses
    allow_only_licenses partial_match failed_licenses :
  fail_on_check license_names fail_on_licenses partial_match
  = Some failed_licenses →
  enforce license_names fail_on_licenses allow_only_licenses partial_match
  = Ok (Reject FailOn failed_licenses).
Proof. intros H. unfold enforce. by rewrite H. Qed.

Lemma set_diff_subseteq license_names allow_only_licenses :
  case_insensitive_set_diff license_names allow_only_licenses
  ⊆ license_names.
Proof. intros x. rewrite elem_of_case_insensitive_set_diff. tauto. Qed.

(** Exact mode: one allowed license is enough to continue. *)
Lemma enforce_allow_only_exact_overlap license_names allow_only_licenses x item_b :
  x ∈ license_names → item_b ∈ allow_only_licenses →
  exact_match x item_b →
  enforce license_names ∅ allow_only_licenses false = Ok Continue.
Proof.
  intros Hx Hb Hm. unfold enforce. rewrite fail_on_check_empty.
  unfold allow_only_check. rewrite decide_True by set_solver. simpl.
  rewrite decide_False; [done|].
  assert (case_insensitive_set_diff license_names allow_only_licenses
          ⊂ license_names) as Hsub.
  { split; [apply set_diff_subseteq|]. intros Hsup.
    specialize (Hsup x Hx).
    apply elem_of_case_insensitive_set_diff in Hsup as [_ Hn].
    apply Hn. by exists item_b. }
  apply subset_size in Hsub. lia.
Qed.

(** Exact mode: an allow-only rejection means no license is allowed. *)
Lemma enforce_allow_only_exact_reject license_names fail_on_licenses
    allow_only_licenses uncommon_licenses :
  enforce license_names fail_on_licenses allow_only_licenses false
  = Ok (Reject AllowOnly uncommon_licenses) →
  allow_only_licenses ≠ ∅
  ∧ size uncommon_licenses = size license_names
  ∧ uncommon_licenses = license_names
  ∧ ∀ x item_b, x ∈ license_names → item_b ∈ allow_only_licenses →
                ¬ exact_match x item_b.
Proof.
  unfold enforce. destruct (fail_on_check _ _ _); [done|].
  unfold allow_only_check. case_decide as Ha; [|done]. simpl.
  case_decide as Hsz; [|done]. intros [= <-].
  assert (case_insensitive_set_diff license_names allow_only_licenses
          = license_names) as Heq.
  { apply set_subseteq_size_eq; [apply set_diff_subseteq | lia]. }
  repeat split; try done.
  intros x item_b Hx Hb Hm. rewrite <- Heq in Hx.
  apply elem_of_case_insensitive_set_diff in Hx as [_ Hn].
  apply Hn. by exists item_b.
Qed.

(** Partial mode, when no license matches two entries of the allow-only
    list: one allowed license is enough to continue. *)
Lemma enforce_allow_only_partial_overlap license_names allow_only_licenses
    x item_b :
  set_Forall (λ x, size (matches x allow_only_licenses) ≤ 1) license_names →
  x ∈ license_names → item_b ∈ allow_only_licenses →
  partial_match_of x item_b →
  enforce license_names ∅ allow_only_licenses true = Ok Continue.
Proof.
  intros Hall Hx Hb Hm. unfold enforce. rewrite fail_on_check_empty.
  unfold allow_only_check, license_diff.
  rewrite decide_True by set_solver. simpl.
  destruct (partial_diff_returns _ _ Hall) as (u & -> & Hu). simpl.
  rewrite decide_False; [done|].
  assert (u ⊂ license_names) as Hsub.
  { split; [intros z; rewrite Hu; tauto|]. intros Hsup.
    specialize (Hsup x Hx). apply Hu in Hsup as [_ Hn].
    apply Hn. by exists item_b. }
  apply subset_size in Hsub. lia.
Qed.

Example enforce_compound_allowed :
  enforce {[ "MIT"; "Apache-2.0" ]} ∅ {[ "Apache-2.0" ]} false = Ok Continue.
Proof. vm_compute. reflexivity. Qed.

Example enforce_fail_on_gpl :
  enforce {[ "GPL-3.0" ]} {[ "GPL-3.0" ]} ∅ false
  = Ok (Reject FailOn {[ "GPL-3.0" ]}).
Proof. vm_compute. reflexivity. Qed.

Example enforce_allow_only_gpl :
  enforce {[ "GPL-3.0" ]} ∅ {[ "MIT" ]} false
  = Ok (Reject AllowOnly {[ "GPL-3.0" ]}).
Proof. vm_compute. reflexivity. Qed.

End Enforcer.

(** C1. With partial matching, a license that contains two entries of the
    allow-only list makes the enforcer raise [KeyError] where the claim has
    it continue: the license has a match in the list. *)
Theorem enforce_allow_only_partial_raises :
  partial_match_of "Apache Software License" "Apache"
  ∧ enforce {[ "Apache Software License" ]} ∅ {[ "Apache"; "Software" ]} true
    = Raise (KeyError "Apache Software License").
Proof. split; vm_compute; reflexivity. Qed.

(** ** Properties of the package filter *)

Section Filter.

Lemma lower_normalize_pkg_name n :
  Str.lower (normalize_pkg_name n) = normalize_pkg_name n.
Proof. apply lower_idem. Qed.

(** Exclusion by name comes first: the include list and the
    system-package setting are not looked at. *)
Lemma should_include_ignored_name args pkg :
  normalize_pkg_name (name pkg) ∈ normalize_pkg_name <$> ignore_packages args →
  should_include args pkg = false.
Proof.
  intros H. unfold should_include. rewrite lower_normalize_pkg_name.
  by rewrite (bool_decide_eq_true_2 _ H).
Qed.

(** Exclusion by the name:version key comes first as well. *)
Lemma should_include_ignored_key args pkg :
  Str.lower (normalize_pkg_name (name pkg) +:+ ":" +:+ version pkg)
    ∈ normalize_pkg_name <$> ignore_packages args →
  should_include args pkg = false.
Proof.
  intros H. unfold should_include.
  rewrite (bool_decide_eq_true_2 _ H). by rewrite orb_true_r.
Qed.

(** A bare-name entry excludes every version of the package. *)
Lemma should_include_bare_name args pkg :
  name pkg ∈ ignore_packages args → should_include args pkg = false.
Proof.
  intros H. apply should_include_ignored_name.
  apply list_elem_of_fmap. by exists (name pkg).
Qed.

Example should_include_bare_foo v l from_source fail allow :
  should_include (options from_source ["foo"] fail allow) (package "foo" v l)
  = false.
Proof. apply should_include_bare_name. simpl. by left. Qed.

Example should_include_other_version :
  should_include (options MIXED ["foo:2.0"] None None)
    (package "foo" "1.0" "MIT") = true.
Proof. vm_compute. reflexivity. Qed.

(** A pinned entry whose version has no delimiter does exclude. *)
Example should_include_pinned_plain :
  should_include (options MIXED ["foo:2"] None None)
    (package "foo" "2" "MIT") = false.
Proof. vm_compute. reflexivity. Qed.

End Filter.

(** C4. The entry "foo:2.0" of the exclude list is normalized to "foo:2-0",
    the key of package foo 2.0 stays "foo:2.0": the package is not excluded
    and is yielded, where the claim has it rejected. *)
Theorem pinned_exclusion_missed :
  normalize_pkg_name "foo:2.0" = "foo:2-0"
  ∧ should_include (options MIXED ["foo:2.0"] None None)
      (package "foo" "2.0" "MIT") = true
  ∧ yielded (get_packages (options MIXED ["foo:2.0"] None None)
               [package "foo" "2.0" "MIT"])
    = [package "foo" "2.0" "MIT"].
Proof. repeat split; vm_compute; reflexivity. Qed.

(** ** Properties of the package loop *)

Section Loop.

Variable args : CustomNamespace.

(** The loop body on one package that passes the filter. *)
Lemma get_packages_cons pkg pkgs :
  should_include args pkg = true →
  get_packages args (pkg :: pkgs)
  = match enforce (selected args pkg) (fail_on_licenses args)
            (allow_only_licenses args) (partial_match args) with
    | Ok Continue =>
        let r := get_packages args pkgs in
        {| yielded := pkg :: yielded r; stderr := stderr r;
           status := status r |}
    | Ok (Reject FailOn failed_licenses) =>
        {| yielded := []; stderr := [fail_on_message failed_licenses pkg];
           status := SysExit 1 |}
    | Ok (Reject AllowOnly uncommon_licenses) =>
        {| yielded := [];
           stderr := [allow_only_message uncommon_licenses pkg];
           status := SysExit 1 |}
    | Raise e => {| yielded := []; stderr := []; status := Uncaught e |}
    end.
Proof. intros H. simpl. by rewrite H. Qed.

(** Nothing is written to [sys.stderr] by a loop that runs to its end. *)
Lemma get_packages_returned_stderr pkgs :
  status (get_packages args pkgs) = Returned →
  stderr (get_packages args pkgs) = [].
Proof.
  induction pkgs as [|pkg pkgs IH]; simpl; [done|].
  destruct (should_include args pkg); [|done].
  destruct (enforce _ _ _ _) as [[|[] ?]|]; simpl; done.
Qed.

(** The loop yields packages of its input, in the order of the input. *)
Lemma get_packages_yielded_sublist pkgs :
  yielded (get_packages args pkgs) `sublist_of` pkgs.
Proof.
  induction pkgs as [|pkg pkgs IH]; simpl; [done|].
  destruct (should_include args pkg); [|by apply sublist_cons].
  destruct (enforce _ _ _ _) as [[|[] ?]|]; simpl;
    [by apply sublist_skip | apply sublist_nil_l ..].
Qed.

(** A prefix that is processed to its end hands over to the rest. *)
Lemma get_packages_app pre pkgs :
  status (get_packages args pre) = Returned →
  get_packages args (pre ++ pkgs)
  = {| yielded := yielded (get_packages args pre)
                  ++ yielded (get_packages args pkgs);
       stderr := stderr (get_packages args pkgs);
       status := status (get_packages args pkgs) |}.
Proof.
  induction pre as [|pkg pre IH]; simpl.
  - intros _. by destruct (get_packages args pkgs).
  - destruct (should_include args pkg); [|done].
    destruct (enforce _ _ _ _) as [[|[] ?]|]; simpl; try done.
    intros H. by rewrite (IH H).
Qed.

(** A prefix that stops early stops the whole run. *)
Lemma get_packages_app_stopped pre pkgs :
  status (get_packages args pre) ≠ Returned →
  get_packages args (pre ++ pkgs) = get_packages args pre.
Proof.
  induction pre as [|pkg pre IH]; simpl; [done|].
  destruct (should_include args pkg); [|done].
  destruct (enforce _ _ _ _) as [[|[] ?]|]; simpl; try done.
  intros H. by rewrite (IH H).
Qed.

End Loop.

(** C5, as stated, fails: with strategy ALL the fail-on check still runs,
    on the declared license, and rejects the package. *)
Lemma policy_enforced_under_all :
  from_ (options ALL [] (Some "GPL") None) = ALL
  ∧ get_packages (options ALL [] (Some "GPL") None)
      [package "b" "2.0" "GPL"]
    = {| yielded := [];
         stderr := [fail_on_message {[ "GPL" ]} (package "b" "2.0" "GPL")];
         status := SysExit 1 |}.
Proof. split; vm_compute; reflexivity. Qed.

(** C5, as amended. With strategy ALL the selector is called like with any
    other strategy and returns the singleton of the declared license, as
    with META; the loop, policy checks included, runs as it does with
    META. *)
Theorem all_is_enforced_as_meta :
  (∀ license_classifier license_meta,
     select_license_by_source ALL license_classifier license_meta
     = {[ license_meta ]})
  ∧ (∀ ignore pkgs_arg sys partial fail allow pkgs,
       get_packages
         {| from_ := ALL; ignore_packages := ignore; packages := pkgs_arg;
            with_system := sys; partial_match := partial;
            fail_on := fail; allow_only := allow |} pkgs
       = get_packages
           {| from_ := META; ignore_packages := ignore; packages := pkgs_arg;
              with_system := sys; partial_match := partial;
              fail_on := fail; allow_only := allow |} pkgs).
Proof.
  split; [done|].
  intros ignore pkgs_arg sys partial fail allow pkgs.
  induction pkgs as [|pkg pkgs IH]; simpl; [done|]. by rewrite IH.
Qed.

(** ** Properties of the aggregator *)

Section Aggregator.

#[local] Instance le_total : Total Str.le.
Proof. intros s t. apply String.leb_total. Qed.

(** [sorted] returns its argument rearranged in ascending order. *)
Lemma sorted_Sorted l : Sorted Str.le (Str.sorted l).
Proof. apply Sorted_merge_sort, _. Qed.

Lemma sorted_Permutation l : Str.sorted l ≡ₚ l.
Proof. apply merge_sort_Permutation. Qed.

(** One more key: its counter goes up by one, the others stay. *)
Lemma Counter_snoc keys k :
  Counter (keys ++ [k])
  = <[ k := S (default 0 (Counter keys !! k)) ]> (Counter keys).
Proof. unfold Counter. by rewrite foldl_app. Qed.

(** The counter of a key is the number of its occurrences. *)
Lemma Counter_lookup keys k :
  default 0 (Counter keys !! k) = length (filter (λ x, x = k) keys).
Proof.
  induction keys as [|k' keys IH] using rev_ind; [done|].
  rewrite Counter_snoc, filter_app, length_app, <- IH.
  destruct (decide (k' = k)) as [->|Hne].
  - rewrite lookup_insert_eq, filter_cons_True by done. simpl. lia.
  - rewrite lookup_insert_ne, filter_cons_False by done. simpl. lia.
Qed.

Lemma total_insert_fresh k n (counts : gmap string nat) :
  counts !! k = None → total (<[ k := n ]> counts) = n + total counts.
Proof.
  intros H. unfold total.
  rewrite (map_fold_insert_L (λ _ n acc, n + acc)); [done| |done].
  intros. lia.
Qed.

Lemma total_increment k (counts : gmap string nat) :
  total (<[ k := S (default 0 (counts !! k)) ]> counts) = S (total counts).
Proof.
  destruct (counts !! k) as [n|] eqn:Hk; simpl.
  - rewrite <- (insert_delete_id counts k n) at 2 by done.
    rewrite <- (insert_delete_eq counts).
    rewrite !total_insert_fresh by apply lookup_delete_eq. done.
  - by rewrite total_insert_fresh.
Qed.

(** As many increments as keys. *)
Lemma Counter_total keys : total (Counter keys) = length keys.
Proof.
  induction keys as [|k keys IH] using rev_ind; [done|].
  rewrite Counter_snoc, total_increment, IH, length_app. simpl. lia.
Qed.

(** The counts of the summary table are those of the packages yielded. *)
Lemma create_summary_table_returned args pkgs :
  status (get_packages args pkgs) = Returned →
  create_summary_table args pkgs
  = Some (aggregate (selected args <$> yielded (get_packages args pkgs))).
Proof. intros H. unfold create_summary_table. by rewrite H. Qed.

End Aggregator.

(** C9. Each incoming license set adds one to the counter of its rendering
    and leaves the other counters alone; the rendering joins the sorted
    elements with "; "; the counter of a key is the number of sets with
    that rendering, so that two sets share a counter exactly when their
    renderings are equal; all counters add up to the number of sets. *)
Theorem aggregate_counts :
  (∀ license_sets license_set,
     aggregate (license_sets ++ [license_set])
     = <[ license_str license_set :=
            S (default 0 (aggregate license_sets !! license_str license_set)) ]>
         (aggregate license_sets))
  ∧ (∀ license_sets k,
       default 0 (aggregate license_sets !! k)
       = length (filter (λ s, license_str s = k) license_sets))
  ∧ (∀ license_sets, total (aggregate license_sets) = length license_sets)
  ∧ (∀ license_set,
       license_str license_set
       = Str.join "; " (Str.sorted (elements license_set))
       ∧ Sorted Str.le (Str.sorted (elements license_set))
       ∧ Str.sorted (elements license_set) ≡ₚ elements license_set)
  ∧ license_str {[ "MIT"; "Apache-2.0" ]} = "Apache-2.0; MIT"
  ∧ aggregate [{[ "MIT" ]}; {[ "MIT" ]}; {[ "MIT"; "Apache-2.0" ]}]
    = {[ "MIT" := 2; "Apache-2.0; MIT" := 1 ]}.
Proof.
  split; [|split; [|split; [|split; [|split]]]].
  - intros license_sets license_set. unfold aggregate.
    rewrite fmap_app. apply (Counter_snoc (license_str <$> license_sets)).
  - intros license_sets k. unfold aggregate. rewrite Counter_lookup.
    induction license_sets as [|s license_sets IH]; [done|].
    rewrite fmap_cons.
    destruct (decide (license_str s = k)) as [Hk|Hk].
    + rewrite !filter_cons_True by done. simpl. by rewrite IH.
    + by rewrite !filter_cons_False by done.
  - intros license_sets. unfold aggregate.
    by rewrite Counter_total, length_fmap.
  - intros license_set. split; [done|].
    split; [apply sorted_Sorted | apply sorted_Permutation].
  - vm_compute. reflexivity.
  - vm_compute. reflexivity.
Qed.


(** * Further properties *)

(** ** The matchers on their own *)

Section MatcherAlgebra.

Implicit Types set_a set_b : gset string.

Lemma exact_match_dec_exists x set_b :
  Decision (∃ item_b, item_b ∈ set_b ∧ exact_match x item_b).
Proof.
  unfold exact_match.
  destruct (decide (set_Exists (λ item_b, Str.lower x = Str.lower item_b)
                      set_b))
    as [H|H]; [left|right]; unfold set_Exists in H; naive_solver.
Qed.

Lemma matched_partial_intersect set_a set_b :
  matched set_a set_b
  = case_insensitive_partial_match_set_intersect set_a set_b.
Proof.
  apply set_eq. intros x. unfold matched.
  rewrite elem_of_filter,
    elem_of_case_insensitive_partial_match_set_intersect.
  split.
  - intros [He Hx]. split; [done|].
    apply set_choose_L in He as [y Hy]. unfold matches in Hy.
    apply elem_of_filter in Hy as [? ?]. by exists y.
  - intros [Hx Hm]. split; [|done].
    intros He. by apply matches_empty_iff in He.
Qed.

Lemma partial_diff_Forall_or_Exists set_a set_b :
  set_Forall (λ x, size (matches x set_b) ≤ 1) set_a
  ∨ set_Exists (λ x, 2 ≤ size (matches x set_b)) set_a.
Proof.
  destruct (decide (set_Exists (λ x, 2 ≤ size (matches x set_b)) set_a))
    as [H|H]; [by right|left].
  intros x Hx. destruct (decide (size (matches x set_b) ≤ 1)); [done|].
  exfalso. apply H. exists x. split; [done|lia].
Qed.

Lemma partial_diff_raise_inv set_a set_b e :
  case_insensitive_partial_match_set_diff set_a set_b = Raise e →
  ∃ k, e = KeyError k ∧ k ∈ set_a ∧ 2 ≤ size (matches k set_b).
Proof.
  intros He.
  destruct (partial_diff_Forall_or_Exists set_a set_b) as [H|H].
  - apply partial_diff_fold in H. congruence.
  - apply partial_diff_fold in H as (k & Hk & Hin & Hsz).
    exists k. split; [congruence|done].
Qed.

End MatcherAlgebra.

(** X1. The exact intersection and the exact difference split [set_a]:
    together they are [set_a], and they share no element. *)
Theorem exact_intersect_diff_partition set_a set_b :
  case_insensitive_set_intersect set_a set_b
    ∪ case_insensitive_set_diff set_a set_b = set_a
  ∧ case_insensitive_set_intersect set_a set_b
    ## case_insensitive_set_diff set_a set_b.
Proof.
  split.
  - apply set_eq. intros x.
    rewrite elem_of_union, elem_of_case_insensitive_set_intersect,
      elem_of_case_insensitive_set_diff.
    destruct (exact_match_dec_exists x set_b); tauto.
  - intros x. rewrite elem_of_case_insensitive_set_intersect,
      elem_of_case_insensitive_set_diff. tauto.
Qed.

(** X2. A set matched against itself: the exact intersection is the whole
    set, the exact difference is empty, and so is the partial
    intersection the whole set. *)
Theorem matchers_on_same_set set_a :
  case_insensitive_set_intersect set_a set_a = set_a
  ∧ case_insensitive_set_diff set_a set_a = ∅
  ∧ case_insensitive_partial_match_set_intersect set_a set_a = set_a.
Proof.
  assert (∀ x, x ∈ set_a → ∃ item_b, item_b ∈ set_a ∧ exact_match x item_b)
    as Hself by (intros x Hx; by exists x).
  split; [|split]; apply set_eq; intros x.
  - rewrite elem_of_case_insensitive_set_intersect. naive_solver.
  - rewrite elem_of_case_insensitive_set_diff.
    split; [intros [Hx Hn]; destruct Hn; auto | set_solver].
  - rewrite elem_of_case_insensitive_partial_match_set_intersect.
    split; [tauto|]. intros Hx. split; [done|]. exists x.
    split; [done|]. by apply exact_match_partial.
Qed.

(** X3. Against an empty list nothing matches, in either mode: the
    intersections are empty, the differences return the whole set. *)
Theorem matchers_on_empty_list set_a :
  case_insensitive_set_intersect set_a ∅ = ∅
  ∧ case_insensitive_partial_match_set_intersect set_a ∅ = ∅
  ∧ case_insensitive_set_diff set_a ∅ = set_a
  ∧ case_insensitive_partial_match_set_diff set_a ∅ = Ok set_a.
Proof.
  split; [|split; [|split]].
  - apply set_eq. intros x.
    rewrite elem_of_case_insensitive_set_intersect. set_solver.
  - apply set_eq. intros x.
    rewrite elem_of_case_insensitive_partial_match_set_intersect. set_solver.
  - apply set_eq. intros x.
    rewrite elem_of_case_insensitive_set_diff. set_solver.
  - destruct (partial_diff_fold set_a ∅) as [Hok _]. rewrite Hok.
    + f_equal. rewrite matched_partial_intersect. apply set_eq. intros x.
      rewrite elem_of_difference,
        elem_of_case_insensitive_partial_match_set_intersect. set_solver.
    + intros x _. unfold matches. rewrite filter_empty_L; try apply _.
      rewrite size_empty. lia.
Qed.

(** X4. The partial difference returns exactly when no element of [set_a]
    contains two elements of [set_b]. *)
Theorem partial_diff_returns_iff set_a set_b :
  (∃ uncommon_items,
     case_insensitive_partial_match_set_diff set_a set_b = Ok uncommon_items)
  ↔ set_Forall (λ x, size (matches x set_b) ≤ 1) set_a.
Proof.
  split.
  - intros [u Hu].
    destruct (partial_diff_Forall_or_Exists set_a set_b) as [H|H]; [done|].
    apply partial_diff_raises in H as [k Hk]. congruence.
  - intros H. eexists. by apply partial_diff_fold.
Qed.

(** X5. When the partial difference returns, it returns [set_a] without the
    partial intersection. *)
Theorem partial_diff_is_complement set_a set_b uncommon_items :
  case_insensitive_partial_match_set_diff set_a set_b = Ok uncommon_items →
  uncommon_items
  = set_a ∖ case_insensitive_partial_match_set_intersect set_a set_b.
Proof.
  intros Hu.
  destruct (partial_diff_Forall_or_Exists set_a set_b) as [H|H].
  - apply partial_diff_fold in H. rewrite H in Hu.
    injection Hu as <-. by rewrite matched_partial_intersect.
  - apply partial_diff_raises in H as [k Hk]. congruence.
Qed.

(** X5 on a sample: "Apache" is in one license only, once. *)
Lemma partial_diff_is_complement_witness :
  ({[ "MIT" ]} : gset string)
  = {[ "MIT"; "Apache-2.0" ]}
    ∖ case_insensitive_partial_match_set_intersect
        {[ "MIT"; "Apache-2.0" ]} {[ "apache" ]}.
Proof.
  apply (partial_diff_is_complement {[ "MIT"; "Apache-2.0" ]} {[ "apache" ]}).
  vm_compute. reflexivity.
Defined.

(** X6. When the partial difference raises, the [KeyError] names an element
    of [set_a] that contains two elements of [set_b]. *)
Theorem partial_diff_key_error set_a set_b k :
  case_insensitive_partial_match_set_diff set_a set_b = Raise (KeyError k) →
  k ∈ set_a ∧ 2 ≤ size (matches k set_b).
Proof.
  intros Hk.
  apply partial_diff_raise_inv in Hk as (k' & [= ->] & Hin & Hsz). done.
Qed.

(** X6 on the sample of two allow-only entries in one license. *)
Lemma partial_diff_key_error_witness :
  "Apache Software License" ∈ ({[ "Apache Software License" ]} : gset string)
  ∧ 2 ≤ size (matches "Apache Software License" {[ "Apache"; "Software" ]}).
Proof.
  apply (partial_diff_key_error _ {[ "Apache"; "Software" ]}).
  vm_compute. reflexivity.
Defined.

(** ** The policy checks and the loop, further *)

Section Policy.

Implicit Types license_names fail_on_licenses allow_only_licenses : gset string.


(** The sizes of the two exact parts add up. *)
Lemma exact_sizes license_names allow_only_licenses :
  size license_names
  = size (case_insensitive_set_intersect license_names allow_only_licenses)
    + size (case_insensitive_set_diff license_names allow_only_licenses).
Proof.
  rewrite <- size_union.
  - f_equal. apply set_eq. intros x.
    rewrite elem_of_union, elem_of_case_insensitive_set_intersect,
      elem_of_case_insensitive_set_diff.
    destruct (exact_match_dec_exists x allow_only_licenses); tauto.
  - intros x. rewrite elem_of_case_insensitive_set_intersect,
      elem_of_case_insensitive_set_diff. tauto.
Qed.



Lemma startswith_empty s : Str.startswith s "" = true.
Proof. by destruct s. Qed.



End Policy.

(** X7. Exact mode with an allow-only list and no fail-on list: the
    package is rejected, with all its licenses as offending, exactly when
    the exact intersection of its licenses with the list is empty. *)
Theorem allow_only_rejects_on_empty_intersection
    license_names allow_only_licenses :
  allow_only_licenses ≠ ∅ →
  enforce license_names ∅ allow_only_licenses false
  = if decide (case_insensitive_set_intersect license_names
                 allow_only_licenses = ∅)
    then Ok (Reject AllowOnly license_names)
    else Ok Continue.
Proof.
  intros Ha. unfold enforce. rewrite fail_on_check_empty.
  unfold allow_only_check, license_diff. rewrite decide_True by done. simpl.
  pose proof (exact_sizes license_names allow_only_licenses) as Hsz.
  destruct (decide (case_insensitive_set_intersect license_names
                      allow_only_licenses = ∅)) as [He|He].
  - rewrite He in Hsz. rewrite (size_empty (C:=gset string)) in Hsz.
    rewrite decide_True by lia. simpl.
    do 2 f_equal. apply set_subseteq_size_eq; [apply set_diff_subseteq|lia].
  - rewrite decide_False; [done|].
    assert (size (case_insensitive_set_intersect license_names
                    allow_only_licenses) ≠ 0); [|lia].
    intros H0. by apply size_empty_inv, leibniz_equiv in H0.
Qed.

(** X7 on two samples: a compound set with one allowed license passes, a
    set without any is rejected whole. *)
Lemma allow_only_rejects_on_empty_intersection_witness :
  enforce {[ "MIT"; "Apache-2.0" ]} ∅ {[ "apache-2.0" ]} false = Ok Continue
  ∧ enforce {[ "GPL"; "AGPL" ]} ∅ {[ "MIT" ]} false
    = Ok (Reject AllowOnly {[ "GPL"; "AGPL" ]}).
Proof.
  split.
  - rewrite allow_only_rejects_on_empty_intersection by set_solver.
    vm_compute. reflexivity.
  - rewrite allow_only_rejects_on_empty_intersection by set_solver.
    vm_compute. reflexivity.
Defined.

Section LoopFurther.

Variable args : CustomNamespace.

(** The three ways the loop can end, and what is on [sys.stderr] then. *)
Lemma get_packages_shape pkgs :
  match status (get_packages args pkgs) with
  | Returned => stderr (get_packages args pkgs) = []
  | SysExit code =>
      code = 1 ∧ ∃ line, stderr (get_packages args pkgs) = [line]
  | Uncaught _ => stderr (get_packages args pkgs) = []
  end.
Proof.
  induction pkgs as [|pkg pkgs IH]; simpl; [done|].
  destruct (should_include args pkg); [|done].
  destruct (enforce _ _ _ _) as [[|[] ?]|]; simpl; eauto.
Qed.

(** An uncaught exception comes from the policy check of some package. *)
Lemma get_packages_uncaught_inv pkgs e :
  status (get_packages args pkgs) = Uncaught e →
  ∃ pkg, pkg ∈ pkgs
    ∧ enforce (selected args pkg) (fail_on_licenses args)
        (allow_only_licenses args) (partial_match args) = Raise e.
Proof.
  induction pkgs as [|pkg pkgs IH]; simpl; [done|].
  destruct (should_include args pkg).
  - destruct (enforce _ _ _ _) as [[|[] ?]|] eqn:He; simpl; try done.
    + intros H. destruct (IH H) as (p & Hp & Hr). exists p.
      split; [by right|done].
    + intros [= ->]. exists pkg. split; [by left|done].
  - intros H. destruct (IH H) as (p & Hp & Hr). exists p.
    split; [by right|done].
Qed.

(** What is yielded has passed the filter and both policy blocks. *)
Lemma get_packages_yielded_Forall pkgs :
  Forall (λ pkg, should_include args pkg = true
                 ∧ enforce (selected args pkg) (fail_on_licenses args)
                     (allow_only_licenses args) (partial_match args)
                   = Ok Continue)
    (yielded (get_packages args pkgs)).
Proof.
  induction pkgs as [|pkg pkgs IH]; simpl; [done|].
  destruct (should_include args pkg) eqn:Hinc; [|done].
  destruct (enforce _ _ _ _) as [[|[] ?]|] eqn:He; simpl; try done.
  by constructor.
Qed.

End LoopFurther.

(** X10. Every package the loop yields has passed the filter and both
    policy blocks, and the packages yielded keep the order of the input. *)
Theorem yielded_passed_filter_and_policy args pkgs :
  Forall (λ pkg, should_include args pkg = true
                 ∧ enforce (selected args pkg) (fail_on_licenses args)
                     (allow_only_licenses args) (partial_match args)
                   = Ok Continue)
    (yielded (get_packages args pkgs))
  ∧ yielded (get_packages args pkgs) `sublist_of` pkgs.
Proof.
  split; [apply get_packages_yielded_Forall
         | apply get_packages_yielded_sublist].
Qed.

(** X11. The loop ends in one of three ways: it returns with nothing on
    [sys.stderr]; it exits, always with code 1 and exactly one line on
    [sys.stderr]; or it raises with nothing on [sys.stderr]. No table is
    produced unless it returns. *)
Theorem run_endings args pkgs :
  match status (get_packages args pkgs) with
  | Returned =>
      stderr (get_packages args pkgs) = []
      ∧ create_licenses_table args pkgs
        = Some (yielded (get_packages args pkgs))
  | SysExit code =>
      code = 1 ∧ (∃ line, stderr (get_packages args pkgs) = [line])
      ∧ create_licenses_table args pkgs = None
      ∧ create_summary_table args pkgs = None
  | Uncaught _ =>
      stderr (get_packages args pkgs) = []
      ∧ create_licenses_table args pkgs = None
      ∧ create_summary_table args pkgs = None
  end.
Proof.
  pose proof (get_packages_shape args pkgs) as H.
  unfold create_licenses_table, create_summary_table.
  destruct (status (get_packages args pkgs)); naive_solver.
Qed.

(** ** The policy lists *)

Section PolicyLists.

Lemma rstrip_idem s : Str.rstrip (Str.rstrip s) = Str.rstrip s.
Proof.
  induction s as [|c s IH]; simpl; [done|].
  destruct (Str.rstrip s) as [|d r] eqn:Hr.
  - destruct (Str.is_space c) eqn:Hc; simpl; [done|]. by rewrite Hc.
  - simpl in *. by rewrite IH.
Qed.

(** A string that does not start with a space still does not after
    [rstrip]. *)
Lemma lstrip_rstrip s : Str.lstrip s = s → Str.lstrip (Str.rstrip s) = Str.rstrip s.
Proof.
  destruct s as [|c s]; simpl; [done|].
  destruct (Str.is_space c) eqn:Hc.
  - intros H. exfalso.
    assert (String.length (Str.lstrip s) ≤ String.length s) as Hle.
    { clear. induction s as [|d s IH]; simpl; [done|].
      destruct (Str.is_space d); simpl; lia. }
    rewrite H in Hle. simpl in Hle. lia.
  - intros _. destruct (Str.rstrip s); simpl; by rewrite Hc.
Qed.

Lemma lstrip_idem s : Str.lstrip (Str.lstrip s) = Str.lstrip s.
Proof.
  induction s as [|c s IH]; simpl; [done|].
  destruct (Str.is_space c) eqn:Hc; [done|]. simpl. by rewrite Hc.
Qed.

Lemma strip_idem s : Str.strip (Str.strip s) = Str.strip s.
Proof.
  unfold Str.strip.
  rewrite (lstrip_rstrip (Str.lstrip s)) by apply lstrip_idem.
  apply rstrip_idem.
Qed.

Lemma split_nonempty sep s : Str.split sep s ≠ [].
Proof.
  destruct s as [|c s]; simpl; [done|].
  case_decide; [done|]. by destruct (Str.split sep s).
Qed.

End PolicyLists.

(** X12. A policy option that is absent or empty gives the empty list,
    which switches the check off; any other string gives a list that is
    not empty, whose entries have no white space at either end. *)
Theorem license_list_entries :
  license_list None = ∅
  ∧ license_list (Some "") = ∅
  ∧ ∀ c s, license_list (Some (String c s)) ≠ ∅
           ∧ set_Forall (λ entry, Str.strip entry = entry)
               (license_list (Some (String c s))).
Proof.
  split; [done|]. split; [done|]. intros c s.
  unfold license_list. rewrite decide_False by done. split.
  - pose proof (split_nonempty ";"%char (String c s)) as Hne.
    destruct (Str.split ";"%char (String c s)) as [|f fs]; [done|].
    rewrite fmap_cons. set_solver.
  - intros entry [f [-> _]]%elem_of_list_to_set%list_elem_of_fmap.
    apply strip_idem.
Qed.

(** ** The summary, further *)

Section Summary.

Lemma Counter_lookup_pos keys k n :
  Counter keys !! k = Some n → 0 < n ∧ k ∈ keys.
Proof.
  revert n. induction keys as [|k' keys IH] using rev_ind; intros n.
  - unfold Counter. simpl. by rewrite lookup_empty.
  - rewrite Counter_snoc. destruct (decide (k' = k)) as [->|Hne].
    + rewrite lookup_insert_eq. intros [= <-]. split; [lia|].
      apply elem_of_app. right. by left.
    + rewrite lookup_insert_ne by done. intros H.
      destruct (IH _ H). split; [done|]. apply elem_of_app. by left.
Qed.

Lemma Counter_lookup_elem keys k : k ∈ keys → is_Some (Counter keys !! k).
Proof.
  induction keys as [|k' keys IH] using rev_ind; [by intros ?%elem_of_nil|].
  rewrite Counter_snoc. intros [H|H%list_elem_of_singleton]%elem_of_app.
  - destruct (decide (k' = k)) as [->|Hne].
    + rewrite lookup_insert_eq. by eexists.
    + rewrite lookup_insert_ne by done. auto.
  - subst. rewrite lookup_insert_eq. by eexists.
Qed.

End Summary.

(** X14. The summary has one entry for each rendering that occurs, and no
    other; every count in it is positive. *)
Theorem summary_keys_and_counts license_sets :
  dom (aggregate license_sets) = list_to_set (license_str <$> license_sets)
  ∧ map_Forall (λ _ count, 0 < count) (aggregate license_sets).
Proof.
  unfold aggregate. split.
  - apply set_eq. intros k. rewrite elem_of_dom, elem_of_list_to_set.
    split.
    + intros [n Hn]. apply Counter_lookup_pos in Hn. tauto.
    + apply Counter_lookup_elem.
  - intros k n Hn. apply Counter_lookup_pos in Hn. tauto.
Qed.

(** X15. The two tables agree: when the loop returns, the counts of the
    summary add up to the number of rows of the license table; when it
    does not, neither table is produced. *)
Theorem summary_total_is_row_count args pkgs :
  match create_licenses_table args pkgs, create_summary_table args pkgs with
  | Some rows, Some counts => total counts = length rows
  | None, None => True
  | _, _ => False
  end.
Proof.
  unfold create_licenses_table, create_summary_table.
  destruct (status (get_packages args pkgs)); [|done..].
  unfold aggregate. by rewrite Counter_total, !length_fmap.
Qed.

(** ** Licenses from classifiers *)

Section Classifier.

Lemma startswith_app s t r :
  Str.startswith s t = true → Str.startswith (s +:+ r) t = true.
Proof.
  revert s. induction t as [|b t IH]; intros s.
  { intros _. apply startswith_empty. }
  destruct s as [|a s]; simpl; [done|]. case_decide; [apply IH|done].
Qed.

Lemma split_skip_unfold sep c s :
  PyStr.split_skip sep 0 (String c s)
  = if Str.startswith (String c s) sep
    then "" :: PyStr.split_skip sep (String.length sep - 1) s
    else match PyStr.split_skip sep 0 s with
         | [] => [String c ""]
         | f :: fs => String c f :: fs
         end.
Proof. reflexivity. Qed.

(** The first field of a split is a prefix of the string. *)
Lemma split_head_prefix sep s :
  ∃ f fs rest, PyStr.split_skip sep 0 s = f :: fs ∧ s = f +:+ rest.
Proof.
  induction s as [|c s (f & fs & rest & Hs & Hr)].
  - by exists "", [], "".
  - rewrite split_skip_unfold.
    destruct (Str.startswith (String c s) sep).
    + exists "", (PyStr.split_skip sep (String.length sep - 1) s),
        (String c s). split; reflexivity.
    + rewrite Hs. exists (String c f), fs, rest. split; [done|].
      change (String c s = String c (f +:+ rest)). by f_equal.
Qed.

(** No field of a split contains the separator. *)
Lemma split_fields_free sep skip s :
  sep ≠ "" →
  Forall (λ f, Str.contains f sep = false) (PyStr.split_skip sep skip s).
Proof.
  intros Hsep. revert skip.
  assert (Str.contains "" sep = false) as Hnil by (by destruct sep).
  induction s as [|c s IH]; intros skip.
  - by constructor.
  - destruct skip as [|k]; [|apply IH]. rewrite split_skip_unfold.
    destruct (Str.startswith (String c s) sep) eqn:Hst.
    + constructor; [done|apply IH].
    + destruct (split_head_prefix sep s) as (f & fs & rest & Hs & Hr).
      pose proof (IH 0) as Hall. rewrite Hs in Hall |- *.
      apply Forall_cons in Hall as [Hf Hfs]. constructor; [|done].
      change (Str.contains (String c f) sep)
        with (Str.startswith (String c f) sep || Str.contains f sep).
      rewrite Hf, orb_false_r.
      destruct (Str.startswith (String c f) sep) eqn:Hcf; [|done].
      apply (startswith_app _ _ rest) in Hcf.
      change (String c f +:+ rest) with (String c (f +:+ rest)) in Hcf.
      rewrite <- Hr in Hcf. congruence.
Qed.

Lemma last_item_elem (l : list string) : l ≠ [] → PyStr.last_item l ∈ l.
Proof.
  unfold PyStr.last_item. induction l as [|x l IH]; [done|]. intros _.
  destruct l as [|y l]; [by left|]. right. by apply IH.
Qed.

Lemma split_skip_nonempty sep skip s : PyStr.split_skip sep skip s ≠ [].
Proof.
  revert skip. induction s as [|c s IH]; intros skip; [done|].
  destruct skip; [|apply IH]. rewrite split_skip_unfold.
  destruct (Str.startswith _ _); [done|].
  by destruct (PyStr.split_skip sep 0 s).
Qed.

Lemma find_license_elem lic classifiers :
  lic ∈ find_license_from_classifier classifiers →
  lic ≠ "OSI Approved"
  ∧ ∃ classifier, classifier ∈ classifiers
      ∧ Str.startswith classifier "License" = true
      ∧ lic = PyStr.last_item (PyStr.split " :: " classifier).
Proof.
  induction classifiers as [|c cs IH]; simpl; [by intros ?%elem_of_nil|].
  destruct (Str.startswith c "License") eqn:Hst.
  - case_decide as Hosi.
    + intros [->|H]%elem_of_cons.
      * split; [done|]. exists c. split; [by left|done].
      * destruct (IH H) as (? & c' & ? & ? & ?). split; [done|].
        exists c'. split; [by right|done].
    + intros H. destruct (IH H) as (? & c' & ? & ? & ?). split; [done|].
      exists c'. split; [by right|done].
  - intros H. destruct (IH H) as (? & c' & ? & ? & ?). split; [done|].
    exists c'. split; [by right|done].
Qed.

End Classifier.

(** X16. The licenses found keep the order of the classifiers: the
    function distributes over concatenation; classifiers that do not start
    with "License" change nothing; there is at most one license for each
    classifier. *)
Theorem find_license_from_classifier_app :
  (∀ classifiers classifiers',
     find_license_from_classifier (classifiers ++ classifiers')
     = find_license_from_classifier classifiers
       ++ find_license_from_classifier classifiers')
  ∧ (∀ classifiers,
       find_license_from_classifier
         (filter (λ c, Str.startswith c "License" = true) classifiers)
       = find_license_from_classifier classifiers)
  ∧ (∀ classifiers,
       length (find_license_from_classifier classifiers)
       ≤ length classifiers).
Proof.
  split; [|split].
  - intros cs cs'. induction cs as [|c cs IH]; simpl; [done|].
    destruct (Str.startswith c "License"); [|done].
    case_decide; [|done]. simpl. by rewrite IH.
  - intros cs. induction cs as [|c cs IH]; [done|].
    destruct (Str.startswith c "License") eqn:Hst.
    + rewrite filter_cons_True by done. simpl. rewrite Hst.
      case_decide; by rewrite IH.
    + rewrite filter_cons_False by congruence. simpl. by rewrite Hst.
  - intros cs. induction cs as [|c cs IH]; simpl; [done|].
    destruct (Str.startswith c "License"); [|lia].
    case_decide; simpl; lia.
Qed.

(** X17. A license found is never "OSI Approved" and never contains the
    separator " :: ": it is the last part of a classifier that starts with
    "License". *)
Theorem find_license_from_classifier_items classifiers :
  Forall (λ lic, lic ≠ "OSI Approved"
                 ∧ Str.contains lic " :: " = false
                 ∧ ∃ classifier, classifier ∈ classifiers
                     ∧ Str.startswith classifier "License" = true
                     ∧ lic = PyStr.last_item (PyStr.split " :: " classifier))
    (find_license_from_classifier classifiers).
Proof.
  apply Forall_forall. intros lic Hlic.
  apply find_license_elem in Hlic as (Hosi & c & Hc & Hst & ->).
  split; [done|]. split; [|by exists c].
  pose proof (split_fields_free " :: " 0 c) as Hall.
  rewrite Forall_forall in Hall. apply Hall; [done|].
  apply last_item_elem, split_skip_nonempty.
Qed.

(** X18. Under the strategy CLASSIFIER the resolved set never holds
    "OSI Approved": a package whose classifiers name no license resolves to
    UNKNOWN. *)
Theorem classifier_strategy_skips_osi_approved classifiers license_meta :
  ("OSI Approved"
     ∉ select_license_by_source CLASSIFIER
         (find_license_from_classifier classifiers) license_meta)
  ∧ select_license_by_source CLASSIFIER
      (find_license_from_classifier
         ["License :: OSI Approved"; "Programming Language :: Python"])
      license_meta
    = {[ "UNKNOWN" ]}.
Proof.
  split; [|done].
  unfold select_license_by_source. simpl.
  destruct (find_license_from_classifier classifiers) as [|x l] eqn:Hf.
  - rewrite set_or_unknown_nil. by intros ?%elem_of_singleton.
  - rewrite set_or_unknown_cons, <- Hf. intros H%elem_of_list_to_set.
    by apply find_license_elem in H as [? _].
Qed.

(** ** Package metadata *)

Section Metadata.

Lemma or_unknown_nonempty value : or_unknown value ≠ "".
Proof.
  unfold or_unknown, PyStr.or_else. destruct value as [s|]; simpl; [|done].
  case_bool_decide; simpl; [done|]. done.
Qed.

Lemma or_unknown_falsy value :
  PyStr.truthy value = false → or_unknown value = LICENSE_UNKNOWN.
Proof. unfold or_unknown, PyStr.or_else. by intros ->. Qed.

(** An entry cannot be unpacked exactly when it has no separator. *)
Lemma split_once_None sep s :
  PyStr.split_once sep s = None ↔ Str.contains s (String sep "") = false.
Proof.
  induction s as [|c s IH]; simpl; [done|].
  destruct (decide (c = sep)) as [->|Hne]; simpl.
  - by destruct s.
  - destruct (PyStr.split_once sep s) as [[k v]|].
    + split; [done|]. intros H. by apply IH in H.
    + split; [intros _; by apply IH|done].
Qed.

(** The first loop of [extract_homepage] raises exactly when some entry
    cannot be unpacked. *)
Lemma homepage_candidates_ValueError entries candidates :
  homepage_candidates entries candidates = ValueError
  ↔ Exists (λ entry, PyStr.split_once ","%char entry = None) entries.
Proof.
  revert candidates. induction entries as [|entry entries IH];
    intros candidates; simpl.
  - split; [done|]. by intros ?%Exists_nil.
  - rewrite Exists_cons.
    destruct (PyStr.split_once ","%char entry) as [[k v]|].
    + rewrite IH. split; [by right|]. by intros [?|?].
    + split; [by left|done].
Qed.

Lemma Exists_no_comma entries :
  Exists (λ entry, PyStr.split_once ","%char entry = None) entries
  ↔ Exists (λ entry, Str.contains entry "," = false) entries.
Proof.
  induction entries as [|entry entries IH].
  - split; by intros ?%Exists_nil.
  - rewrite !Exists_cons, IH, split_once_None. done.
Qed.

(** The entries that the loop over the fields adds: the names of the
    fields in order, no value empty. *)
Lemma metadata_entries_shape keys metadata entries :
  metadata_entries keys metadata = Value entries →
  entries.*1 = keys.*1 ∧ Forall (λ kv, kv.2 ≠ "") entries.
Proof.
  revert entries. induction keys as [|[field fns] keys IH]; intros entries;
    simpl.
  - by intros [= <-].
  - destruct (select_field fns metadata None) as [value|]; simpl; [|done].
    destruct (metadata_entries keys metadata) as [entries'|]; simpl;
      [|done].
    intros [= <-]. destruct (IH _ eq_refl) as [Hk Hv]. simpl.
    split; [by f_equal|]. constructor; [apply or_unknown_nonempty|done].
Qed.

End Metadata.

(** X19. The metadata entries of [pkg_info]: the five fields in the order
    of [METADATA_KEYS], none of them empty; the license is the
    license expression when that is given and not empty, else the license
    header, else UNKNOWN. The entries are not built only when
    [extract_homepage] raises. *)
Theorem metadata_entries_never_empty metadata :
  match metadata_entries METADATA_KEYS metadata with
  | Value entries =>
      entries.*1 = ["home-page"; "author"; "maintainer"; "license"; "summary"]
      ∧ Forall (λ kv, kv.2 ≠ "") entries
      ∧ dict_item entries "license"
        = Ok (or_unknown
                (PyStr.or_else (msg_get metadata "license-expression")
                   (msg_get metadata "license")))
  | ValueError => extract_homepage metadata = ValueError
  end.
Proof.
  destruct (metadata_entries METADATA_KEYS metadata) as [entries|] eqn:He.
  - destruct (metadata_entries_shape _ _ _ He) as [Hk Hv].
    split; [done|]. split; [done|].
    revert He. unfold METADATA_KEYS. simpl.
    destruct (extract_homepage metadata) as [h|]; simpl; [|done].
    repeat (match goal with
            | |- context [PyStr.truthy ?v] =>
                destruct (PyStr.truthy v) eqn:?; simpl
            end);
      intros [= <-]; simpl; try done;
      f_equal; symmetry; by apply or_unknown_falsy.
  - revert He. unfold METADATA_KEYS. simpl.
    destruct (extract_homepage metadata) as [h|]; simpl; [|done].
    repeat (match goal with
            | |- context [PyStr.truthy ?v] =>
                destruct (PyStr.truthy v) eqn:?; simpl
            end); done.
Qed.

(** X20. [extract_homepage] raises [ValueError] exactly when there is no
    Home-page header and some Project-URL entry has no comma; a Home-page
    header is returned as it is, whatever the Project-URL entries are. *)
Theorem extract_homepage_raises_iff metadata :
  (extract_homepage metadata = ValueError
   ↔ msg_get metadata "home-page" = None
     ∧ Exists (λ entry, Str.contains entry "," = false)
         (msg_get_all metadata "Project-URL"))
  ∧ match msg_get metadata "home-page" with
    | Some homepage => extract_homepage metadata = Value (Some homepage)
    | None => True
    end.
Proof.
  unfold extract_homepage.
  destruct (msg_get metadata "home-page") as [h|]; simpl.
  - split; [|done]. split; [done|]. by intros [? _].
  - split; [|done].
    rewrite <- Exists_no_comma, <- (homepage_candidates_ValueError _ ∅).
    destruct (homepage_candidates _ _); simpl; naive_solver.
Qed.

(** X21. An empty Home-page header hides the Project-URL entries: the
    home page of [pkg_info] is UNKNOWN, and entries that cannot be
    unpacked go unnoticed. *)
Theorem empty_homepage_header_is_unknown metadata :
  msg_get metadata "home-page" = Some "" →
  ∃ entries,
    metadata_entries METADATA_KEYS metadata
    = Value (("home-page", "UNKNOWN") :: entries).
Proof.
  intros H. unfold METADATA_KEYS. simpl. unfold extract_homepage.
  rewrite H. simpl.
  repeat (match goal with
          | |- context [PyStr.truthy ?v] =>
              destruct (PyStr.truthy v) eqn:?; simpl
          end); by eexists.
Qed.

(** X21 on a message with an empty Home-page and a Project-URL. *)
Lemma empty_homepage_header_is_unknown_witness :
  ∃ entries,
    metadata_entries METADATA_KEYS
      [("Name", "x"); ("Home-page", ""); ("Project-URL", "Homepage, https://x.org")]
    = Value (("home-page", "UNKNOWN") :: entries).
Proof.
  apply (empty_homepage_header_is_unknown
           [("Name", "x"); ("Home-page", "");
            ("Project-URL", "Homepage, https://x.org")]).
  reflexivity.
Defined.

(** ** Output fields, sort column and rows *)

Section OutputFields.

Lemma all_bool_spec f : all_bool f = true → ∀ b, f b = true.
Proof. unfold all_bool. intros [? ?]%andb_prop []; done. Qed.

Lemma all_FromArg_spec f : all_FromArg f = true → ∀ x, f x = true.
Proof.
  unfold all_FromArg. intros [[[? ?]%andb_prop ?]%andb_prop ?]%andb_prop [];
    done.
Qed.

Lemma all_OrderArg_spec f : all_OrderArg f = true → ∀ x, f x = true.
Proof.
  unfold all_OrderArg.
  intros [[[[[? ?]%andb_prop ?]%andb_prop ?]%andb_prop ?]%andb_prop ?]%andb_prop
    []; done.
Qed.

Lemma all_args_spec f : all_args f = true → ∀ args, f args = true.
Proof.
  intros H [fr o s a m u d nv lf nlp nf]. unfold all_args in H.
  pose proof (all_FromArg_spec _ H fr) as H1. simpl in H1.
  pose proof (all_OrderArg_spec _ H1 o) as H2. simpl in H2.
  pose proof (all_bool_spec _ H2 s) as H3. simpl in H3.
  pose proof (all_bool_spec _ H3 a) as H4. simpl in H4.
  pose proof (all_bool_spec _ H4 m) as H5. simpl in H5.
  pose proof (all_bool_spec _ H5 u) as H6. simpl in H6.
  pose proof (all_bool_spec _ H6 d) as H7. simpl in H7.
  pose proof (all_bool_spec _ H7 nv) as H8. simpl in H8.
  pose proof (all_bool_spec _ H8 lf) as H9. simpl in H9.
  pose proof (all_bool_spec _ H9 nlp) as H10. simpl in H10.
  exact (all_bool_spec _ H10 nf).
Qed.

Lemma fields_check_all : all_args fields_check = true.
Proof. vm_compute. reflexivity. Qed.

Lemma sortby_check_all : all_args sortby_check = true.
Proof. vm_compute. reflexivity. Qed.

End OutputFields.

Section Rows.

(** A cell is found for every field of the listing, and it is a string. *)
Lemma row_cell_listing from_source pkg field :
  field ∈ LISTING_FIELDS →
  ∃ s, row_cell from_source pkg field = Ok (VStr s).
Proof.
  unfold LISTING_FIELDS. rewrite !elem_of_cons, elem_of_nil.
  intros [->|[->|[->|[->|[->|H]]]]].
  - vm_compute. by eexists.
  - vm_compute. by eexists.
  - unfold row_cell. rewrite decide_True by done. by eexists.
  - vm_compute. by eexists.
  - unfold row_cell. rewrite decide_False by done.
    rewrite decide_True by done. by eexists.
  - destruct H as [->|[->|[->|[->|[->|[->|[->|[->|[]]]]]]]]];
      vm_compute; by eexists.
Qed.

Lemma table_row_listing from_source pkg fields :
  Forall (λ field, field ∈ LISTING_FIELDS) fields →
  ∃ row, table_row from_source pkg fields = Ok row
         ∧ length row = length fields
         ∧ Forall (λ cell, ∃ s, cell = VStr s) row.
Proof.
  induction 1 as [|field fields Hf _ (row & Hrow & Hlen & Hall)]; simpl.
  - by exists [].
  - destruct (row_cell_listing from_source pkg field Hf) as [s ->].
    simpl. rewrite Hrow. simpl. exists (VStr s :: row).
    split; [done|]. split; [simpl; by f_equal|].
    constructor; [by exists s|done].
Qed.

End Rows.

(** X22. [get_output_fields] never raises, whatever the flags: the removal
    of Version always finds it. The fields have no repetition. In summary
    mode they are Count and License; in listing mode Name comes first and
    Version is there exactly when [no_version] is not set. *)
Theorem get_output_fields_returns args :
  ∃ fields,
    Output.get_output_fields args = Value fields
    ∧ NoDup fields
    ∧ if Output.summary args then fields = ["Count"; "License"]
      else head fields = Some "Name"
           ∧ ("Version" ∈ fields ↔ Output.no_version args = false).
Proof.
  pose proof (all_args_spec _ fields_check_all args) as H.
  unfold fields_check in H.
  destruct (Output.get_output_fields args) as [fields|]; [|done].
  exists fields. split; [done|].
  apply andb_prop in H as [Hnd H]. apply bool_decide_eq_true in Hnd.
  split; [done|]. destruct (Output.summary args).
  - by apply bool_decide_eq_true in H.
  - apply andb_prop in H as [[Hh _]%andb_prop Hv].
    apply bool_decide_eq_true in Hh. split; [done|].
    apply eqb_prop in Hv. destruct (Output.no_version args); simpl in Hv.
    + apply bool_decide_eq_false in Hv. split; [done|done].
    + apply bool_decide_eq_true in Hv. done.
Qed.

(** X23. In listing mode the row of a package is built for every setting
    of the flags: each output field finds its entry in [pkg_info], no
    [KeyError] is raised, the row has one cell for each field and every
    cell is a string. *)
Theorem table_row_never_raises args pkg :
  Output.summary args = false →
  ∃ fields row,
    Output.get_output_fields args = Value fields
    ∧ table_row (Output.from_ args) pkg fields = Ok row
    ∧ length row = length fields
    ∧ Forall (λ cell, ∃ s, cell = VStr s) row.
Proof.
  intros Hs. pose proof (all_args_spec _ fields_check_all args) as H.
  unfold fields_check in H. rewrite Hs in H.
  destruct (Output.get_output_fields args) as [fields|]; [|done].
  apply andb_prop in H as [_ [[_ Hsub]%andb_prop _]%andb_prop].
  apply bool_decide_eq_true in Hsub.
  destruct (table_row_listing (Output.from_ args) pkg fields)
    as (row & ? & ? & ?).
  { apply Forall_forall. intros f Hf. by apply Hsub. }
  by exists fields, row.
Qed.

(** X23 on a listing under ALL with every flag set. *)
Lemma table_row_never_raises_witness :
  ∃ fields row,
    Output.get_output_fields
      {| Output.from_ := ALL; Output.order := NAME; Output.summary := false;
         Output.with_authors := true; Output.with_maintainers := true;
         Output.with_urls := true; Output.with_description := true;
         Output.no_version := true; Output.with_license_file := true;
         Output.no_license_path := false;
         Output.with_notice_file := true |} = Value fields
    ∧ table_row ALL
        {| info := package "a" "1.0" "MIT"; namever := "a 1.0";
           licensefile := "UNKNOWN"; licensetext := "UNKNOWN";
           noticefile := "UNKNOWN"; noticetext := "UNKNOWN";
           home_page := "UNKNOWN"; author := "A"; maintainer := "UNKNOWN";
           summary := "UNKNOWN" |} fields = Ok row
    ∧ length row = length fields
    ∧ Forall (λ cell, ∃ s, cell = VStr s) row.
Proof.
  apply (table_row_never_raises
           {| Output.from_ := ALL; Output.order := NAME;
              Output.summary := false;
              Output.with_authors := true; Output.with_maintainers := true;
              Output.with_urls := true; Output.with_description := true;
              Output.no_version := true; Output.with_license_file := true;
              Output.no_license_path := false;
              Output.with_notice_file := true |}).
  reflexivity.
Defined.

(** X24. The sort column is one of the output fields, with one exception:
    a listing under the strategy ALL ordered by license is sorted by
    License, which is not among its fields. *)
Theorem sortby_among_fields args :
  ∃ fields,
    Output.get_output_fields args = Value fields
    ∧ (Output.get_sortby args ∈ fields
       ↔ ¬ (Output.summary args = false ∧ Output.order args = LICENSE
            ∧ Output.from_ args = ALL)).
Proof.
  pose proof (all_args_spec _ sortby_check_all args) as H.
  unfold sortby_check in H.
  destruct (Output.get_output_fields args) as [fields|]; [|done].
  exists fields. split; [done|]. apply eqb_prop in H.
  destruct (Output.summary args); simpl in H.
  - apply bool_decide_eq_true in H. split; [|done]. by intros _ [? _].
  - destruct (decide (Output.order args = LICENSE)) as [Ho|Ho].
    + rewrite (bool_decide_eq_true_2 _ Ho) in H. simpl in H.
      destruct (decide (Output.from_ args = ALL)) as [Hf|Hf].
      * rewrite (bool_decide_eq_true_2 _ Hf) in H. simpl in H.
        apply bool_decide_eq_false in H. split; [done|]. intros Hn.
        exfalso. by apply Hn.
      * rewrite (bool_decide_eq_false_2 _ Hf) in H. simpl in H.
        apply bool_decide_eq_true in H. split; [|done].
        intros _ (_ & _ & ?). done.
    + rewrite (bool_decide_eq_false_2 _ Ho) in H. simpl in H.
      apply bool_decide_eq_true in H. split; [|done].
      intros _ (_ & ? & _). done.
Qed.

(** ** Enumerations of the command line *)

Section Enums.

Lemma enum_key_char_round_trip c :
  is_enum_key_char c = true →
  PyStr.upper_char
    (if decide (Str.lower_char (if decide (c = "_"%char) then "-"%char else c)
                = "-"%char)
     then "_"%char
     else Str.lower_char (if decide (c = "_"%char) then "-"%char else c))
  = Some (String c "").
Proof. by destruct c as [[] [] [] [] [] [] [] []]. Qed.

End Enums.

(** X25. The spelling of a name on the command line leads back to the
    name: for a name made of capital letters, digits and underscores,
    [value_to_enum_key] undoes the replacement and lower-casing that
    [enum_key_to_value] and [choices_from_enum] apply. *)
Theorem enum_key_round_trip key :
  string_forallb is_enum_key_char key = true →
  value_to_enum_key (key_to_value key) = Some key.
Proof.
  unfold value_to_enum_key, key_to_value.
  induction key as [|c key IH]; simpl; [done|].
  intros [Hc Hk]%andb_prop. rewrite (enum_key_char_round_trip c Hc).
  by rewrite (IH Hk).
Qed.

(** X25 on the longest name of the program. *)
Lemma enum_key_round_trip_witness :
  value_to_enum_key (key_to_value "JSON_LICENSE_FINDER")
  = Some "JSON_LICENSE_FINDER".
Proof. apply enum_key_round_trip. reflexivity. Defined.

(** X26. For the three enumerations of the command line: every choice
    offered to the parser, aliases included, is found again as the member
    it names, no choice is offered twice, and the spelling shown for a
    member leads back to that member. *)
Theorem enum_choices_resolve :
  (Forall (λ km, get_value_from_enum FromArg_members (key_to_value km.1)
                 = Some (Some km.2)) FromArg_members
   ∧ NoDup (choices_from_enum FromArg_members)
   ∧ ∀ m, get_value_from_enum FromArg_members
            (enum_key_to_value FromArg_members m) = Some (Some m))
  ∧ (Forall (λ km, get_value_from_enum OrderArg_members (key_to_value km.1)
                   = Some (Some km.2)) OrderArg_members
     ∧ NoDup (choices_from_enum OrderArg_members)
     ∧ ∀ m, get_value_from_enum OrderArg_members
              (enum_key_to_value OrderArg_members m) = Some (Some m))
  ∧ (Forall (λ km, get_value_from_enum FormatArg_members (key_to_value km.1)
                   = Some (Some km.2)) FormatArg_members
     ∧ NoDup (choices_from_enum FormatArg_members)
     ∧ ∀ m, get_value_from_enum FormatArg_members
              (enum_key_to_value FormatArg_members m) = Some (Some m)).
Proof.
  split; [|split];
    (split; [repeat constructor|
     split; [apply (bool_decide_unpack _); vm_compute; exact I|
             intros []; vm_compute; reflexivity]]).
Qed.

(** ** Names in the exclude list *)

(** X27. Names in the exclude list are compared after normalization: an
    entry excludes every package whose name normalizes to the same string,
    whatever its version, the include list and the system-package
    setting. *)
Theorem ignore_entry_up_to_normalization args pkg entry :
  entry ∈ ignore_packages args →
  normalize_pkg_name entry = normalize_pkg_name (name pkg) →
  should_include args pkg = false.
Proof.
  intros Hin Hn. apply should_include_ignored_name. rewrite <- Hn.
  apply list_elem_of_fmap. by exists entry.
Qed.

(** X27 on the entry "Foo_Bar" and the package "foo.bar". *)
Lemma ignore_entry_up_to_normalization_witness :
  should_include (options MIXED ["Foo_Bar"] None None)
    (package "foo.bar" "1.0" "MIT") = false.
Proof.
  apply (ignore_entry_up_to_normalization _ _ "Foo_Bar").
  - simpl. by left.
  - reflexivity.
Defined.

(** ** CSV cells *)

Section Csv.

Lemma esc_quotes_cons_inv c s t :
  esc_quotes (String c s) = esc_quotes t →
  ∃ t', t = String c t' ∧ esc_quotes s = esc_quotes t'.
Proof.
  destruct t as [|d t]; simpl.
  - case_decide; done.
  - destruct (decide (c = dquote)) as [->|Hc];
      destruct (decide (d = dquote)) as [->|Hd]; simpl.
    + intros [= H]. by exists t.
    + intros [= <- _]. done.
    + intros [= -> _]. done.
    + intros [= -> H]. by exists t.
Qed.

Lemma join_cons sep x y l :
  Str.join sep (x :: y :: l) = x +:+ sep +:+ Str.join sep (y :: l).
Proof. reflexivity. Qed.

End Csv.

(** X28. Escaping a CSV cell loses nothing and leaves every double quote
    paired: two strings with the same escaped form are equal, and the
    escaped form has twice the double quotes of the string, so that the
    line of a row has an even number of them. *)
Theorem esc_quotes_injective :
  (∀ s t, esc_quotes s = esc_quotes t → s = t)
  ∧ (∀ s, count_quotes (esc_quotes s) = 2 * count_quotes s)
  ∧ (∀ row, Nat.Even (count_quotes (csv_line row))).
Proof.
  assert (∀ s, count_quotes (esc_quotes s) = 2 * count_quotes s) as Hcount.
  { induction s as [|c s IH]; simpl; [done|].
    destruct (decide (c = dquote)) as [->|Hc]; simpl.
    - rewrite IH. lia.
    - rewrite decide_False by done. rewrite IH. lia. }
  assert (∀ s t, count_quotes (s +:+ t) = count_quotes s + count_quotes t)
    as Happ.
  { induction s as [|c s IH]; intros t; simpl; [done|]. rewrite IH. lia. }
  split; [|split; [done|]].
  - induction s as [|c s IH]; intros t H.
    + destruct t as [|d t]; [done|]. simpl in H. by case_decide.
    + apply esc_quotes_cons_inv in H as (t' & -> & H). f_equal. by apply IH.
  - intros row. unfold csv_line.
    induction row as [|val row IH]; [by exists 0|].
    rewrite fmap_cons.
    assert (Nat.Even (count_quotes
              (String dquote (esc_quotes val +:+ String dquote ""))))
      as [n Hn].
    { exists (S (count_quotes val)). simpl. rewrite Happ, Hcount. simpl. lia. }
    destruct row as [|val' row]; [by exists n|].
    destruct IH as [m Hm]. exists (n + m).
    rewrite fmap_cons in Hm |- *. rewrite join_cons. rewrite !Happ, Hn, Hm.
    simpl. lia.
Qed.

(** * The package loop with [get_pkg_info] *)

Section DistLoop.

Variable args : CustomNamespace.
Variable filter_strings : option (string → string).



(** The loop body on a package that the fail-on block rejects. *)
Lemma dist_get_packages_fail_on pkg pkgs pkg_info failed_licenses :
  Dist.included args pkg = true →
  Dist.get_pkg_info filter_strings pkg = Value pkg_info →
  enforce (selected args (info pkg_info)) (fail_on_licenses args)
    (allow_only_licenses args) (partial_match args)
  = Ok (Reject FailOn failed_licenses) →
  Dist.get_packages args filter_strings (pkg :: pkgs)
  = {| Dist.yielded := [];
       Dist.stderr := [fail_on_message failed_licenses (info pkg_info)];
       Dist.status := Dist.SysExit 1 |}.
Proof. intros H1 H2 H3. simpl. by rewrite H1, H2, H3. Qed.

(** The three ways the loop can end, and what is on [sys.stderr] then. *)
Lemma dist_get_packages_shape pkgs :
  match Dist.status (Dist.get_packages args filter_strings pkgs) with
  | Dist.Returned => Dist.stderr (Dist.get_packages args filter_strings pkgs) = []
  | Dist.SysExit code =>
      code = 1 ∧ ∃ line, Dist.stderr (Dist.get_packages args filter_strings pkgs) = [line]
  | Dist.Uncaught _ => Dist.stderr (Dist.get_packages args filter_strings pkgs) = []
  end.
Proof.
  induction pkgs as [|pkg pkgs IH]; simpl; [done|].
  destruct (Dist.included args pkg); [|done].
  destruct (Dist.get_pkg_info filter_strings pkg) as [d|]; [|done].
  destruct (enforce _ _ _ _) as [[|[] ?]|[k]]; simpl; eauto.
Qed.

(** A prefix that is processed to its end hands over to the rest. *)
Lemma dist_get_packages_app pre pkgs :
  Dist.status (Dist.get_packages args filter_strings pre) = Dist.Returned →
  Dist.get_packages args filter_strings (pre ++ pkgs)
  = {| Dist.yielded :=
         Dist.yielded (Dist.get_packages args filter_strings pre)
         ++ Dist.yielded (Dist.get_packages args filter_strings pkgs);
       Dist.stderr := Dist.stderr (Dist.get_packages args filter_strings pkgs);
       Dist.status := Dist.status (Dist.get_packages args filter_strings pkgs) |}.
Proof.
  induction pre as [|pkg pre IH]; simpl.
  - intros _. by destruct (Dist.get_packages _ _ pkgs).
  - destruct (Dist.included args pkg); [|done].
    destruct (Dist.get_pkg_info filter_strings pkg) as [d|]; [|done].
    destruct (enforce _ _ _ _) as [[|[] ?]|[k]]; simpl; try done.
    intros H. by rewrite (IH H).
Qed.

(** A prefix that stops early stops the whole run. *)
Lemma dist_get_packages_app_stopped pre pkgs :
  Dist.status (Dist.get_packages args filter_strings pre) ≠ Dist.Returned →
  Dist.get_packages args filter_strings (pre ++ pkgs) = Dist.get_packages args filter_strings pre.
Proof.
  induction pre as [|pkg pre IH]; simpl; [done|].
  destruct (Dist.included args pkg); [|done].
  destruct (Dist.get_pkg_info filter_strings pkg) as [d|]; [|done].
  destruct (enforce _ _ _ _) as [[|[] ?]|[k]]; simpl; try done.
  intros H. by rewrite (IH H).
Qed.



End DistLoop.

Section DistInfo.



(** The filter reads the name and the version only. *)
Lemma should_include_name_version args p q :
  name p = name q → version p = version q →
  should_include args p = should_include args q.
Proof. intros Hn Hv. unfold should_include. by rewrite Hn, Hv. Qed.

(** Without string filtering, the dictionary built keeps the name and the
    version of the distribution. *)
Lemma get_pkg_info_included args pkg pkg_info :
  Dist.get_pkg_info None pkg = Value pkg_info →
  should_include args (info pkg_info) = Dist.included args pkg.
Proof.
  unfold Dist.get_pkg_info.
  destruct (metadata_entries _ _) as [entries|]; simpl; [|done].
  intros [= <-]. by apply should_include_name_version.
Qed.

(** What [get_pkg_info] stores: every key of [METADATA_KEYS] is found among
    the entries, so that no value is the default of [Dist.entry]. *)
Lemma get_pkg_info_fields pkg pkg_info :
  Dist.get_pkg_info None pkg = Value pkg_info →
  name (info pkg_info) = dist_name pkg
  ∧ version (info pkg_info) = dist_version pkg
  ∧ license (info pkg_info)
    = or_unknown (PyStr.or_else
                    (msg_get (dist_metadata pkg) "license-expression")
                    (msg_get (dist_metadata pkg) "license"))
  ∧ license_classifier (info pkg_info)
    = find_license_from_classifier
        (msg_get_all (dist_metadata pkg) "classifier")
  ∧ home_page pkg_info ≠ "" ∧ author pkg_info ≠ ""
  ∧ maintainer pkg_info ≠ "" ∧ summary pkg_info ≠ "".
Proof.
  unfold Dist.get_pkg_info, METADATA_KEYS. simpl.
  destruct (extract_homepage (dist_metadata pkg)) as [h|]; simpl; [|done].
  repeat (match goal with
          | |- context [PyStr.truthy ?v] =>
              destruct (PyStr.truthy v) eqn:?; simpl
          end);
    intros [= <-]; simpl; unfold Dist.entry; simpl;
    repeat split; try done; try apply or_unknown_nonempty;
    symmetry; by apply or_unknown_falsy.
Qed.

(** Without string filtering, and when [get_pkg_info] returns for every
    package that passes the filter, the generator does what the loop on
    the records built does. *)
Lemma dist_get_packages_built args pkgs pkg_infos :
  unpacked_mapM (Dist.get_pkg_info None)
    (filter (λ pkg, Dist.included args pkg = true) pkgs) = Value pkg_infos →
  info <$> Dist.yielded (Dist.get_packages args None pkgs)
  = yielded (get_packages args (info <$> pkg_infos))
  ∧ Dist.stderr (Dist.get_packages args None pkgs)
    = stderr (get_packages args (info <$> pkg_infos))
  ∧ match Dist.status (Dist.get_packages args None pkgs),
          status (get_packages args (info <$> pkg_infos)) with
    | Dist.Returned, Returned => True
    | Dist.SysExit code, SysExit code' => code = code'
    | Dist.Uncaught (Dist.KeyErr key), Uncaught (KeyError key') => key = key'
    | _, _ => False
    end.
Proof.
  revert pkg_infos. induction pkgs as [|pkg pkgs IH]; intros pkg_infos.
  - intros [= <-]. done.
  - destruct (Dist.included args pkg) eqn:Hinc.
    + rewrite filter_cons_True by done. simpl. rewrite Hinc.
      destruct (Dist.get_pkg_info None pkg) as [d|] eqn:Hd; simpl; [|done].
      destruct (unpacked_mapM _ _) as [ds|] eqn:Hds; simpl; [|done].
      intros [= <-]. simpl.
      rewrite (get_pkg_info_included args pkg d Hd), Hinc.
      destruct (IH ds eq_refl) as (Hy & He & Hs).
      destruct (enforce _ _ _ _) as [[|[] ?]|[k]]; simpl; try done.
      split; [by f_equal|done].
    + rewrite filter_cons_False by (by rewrite Hinc). simpl. rewrite Hinc.
      apply IH.
Qed.

End DistInfo.

(** C2, as amended. When the fail-on list is not empty and a package
    passes the filter, has its dictionary built by [get_pkg_info] and has a
    license in the fail-on list, then wherever the package stands in the
    input the run does not return: its exit status is 1, at most one line
    is written to [sys.stderr], what is yielded is what the loop over the
    packages before it yields, and no table is produced. The package itself
    is rejected by the fail-on block whatever the allow-only list is. When
    the loop over the packages before it runs to its end, the run ends by
    [sys.exit(1)] and the one line on [sys.stderr] names this package, its
    version and its sorted offending licenses; when it does not, the run
    ends as that loop does. *)
Theorem fail_on_ends_run args filter_strings pre pkg post pkg_info :
  fail_on_licenses args ≠ ∅ →
  Dist.included args pkg = true →
  Dist.get_pkg_info filter_strings pkg = Value pkg_info →
  license_intersect (partial_match args) (selected args (info pkg_info))
    (fail_on_licenses args) ≠ ∅ →
  let failed_licenses :=
    license_intersect (partial_match args) (selected args (info pkg_info))
      (fail_on_licenses args) in
  let before := Dist.get_packages args filter_strings pre in
  let r := Dist.get_packages args filter_strings (pre ++ pkg :: post) in
  Dist.status r ≠ Dist.Returned
  ∧ Dist.exit_status (Dist.status r) = 1
  ∧ length (Dist.stderr r) ≤ 1
  ∧ Dist.yielded r = Dist.yielded before
  ∧ Dist.create_licenses_table args filter_strings (pre ++ pkg :: post) = None
  ∧ Dist.create_summary_table args filter_strings (pre ++ pkg :: post) = None
  ∧ enforce (selected args (info pkg_info)) (fail_on_licenses args)
      (allow_only_licenses args) (partial_match args)
    = Ok (Reject FailOn failed_licenses)
  ∧ (Dist.status before = Dist.Returned →
     Dist.status r = Dist.SysExit 1
     ∧ Dist.stderr r = [fail_on_message failed_licenses (info pkg_info)])
  ∧ (Dist.status before ≠ Dist.Returned → r = before).
Proof.
  intros Hfail Hinc Hinfo Hne failed_licenses before r.
  assert (enforce (selected args (info pkg_info)) (fail_on_licenses args)
            (allow_only_licenses args) (partial_match args)
          = Ok (Reject FailOn failed_licenses)) as Henf.
  { apply enforce_fail_on_first. by apply fail_on_check_Some. }
  pose proof (dist_get_packages_shape args filter_strings pre) as Hshape.
  fold before in Hshape.
  assert (Dist.status before = Dist.Returned
          ∧ r = {| Dist.yielded := Dist.yielded before;
                   Dist.stderr :=
                     [fail_on_message failed_licenses (info pkg_info)];
                   Dist.status := Dist.SysExit 1 |}
          ∨ Dist.status before ≠ Dist.Returned ∧ r = before) as [[Hb Hr]|[Hb Hr]].
  { destruct (Dist.status before) eqn:Hs.
    - left. split; [done|]. unfold r.
      rewrite (dist_get_packages_app _ _ _ _ Hs).
      rewrite (dist_get_packages_fail_on _ _ _ _ _ _ Hinc Hinfo Henf).
      simpl. by rewrite app_nil_r.
    - right. split; [done|]. apply dist_get_packages_app_stopped.
      fold before. by rewrite Hs.
    - right. split; [done|]. apply dist_get_packages_app_stopped.
      fold before. by rewrite Hs. }
  - unfold Dist.create_licenses_table, Dist.create_summary_table. fold r.
    rewrite Hr. simpl. repeat split; first [done | lia].
  - unfold Dist.create_licenses_table, Dist.create_summary_table. fold r.
    rewrite Hr.
    destruct (Dist.status before) as [|code|e] eqn:Hs; [done| |].
    + destruct Hshape as [-> [line ->]].
      repeat split; first [done | simpl; lia].
    + rewrite Hshape. repeat split; first [done | simpl; lia].
Qed.

(** The theorem at work: GPL is on the fail-on list, package b declares it,
    package a before it passes. *)
Lemma fail_on_ends_run_witness :
  Dist.get_packages (options MIXED [] (Some "GPL") None) None
    ([Dist.dist "a" "1.0" "BSD"] ++ Dist.dist "b" "2.0" "GPL"
       :: [Dist.dist "c" "3.0" "MIT"])
  = {| Dist.yielded :=
         Dist.yielded
           (Dist.get_packages (options MIXED [] (Some "GPL") None) None
              [Dist.dist "a" "1.0" "BSD"]);
       Dist.stderr := [fail_on_message {[ "GPL" ]} (package "b" "2.0" "GPL")];
       Dist.status := Dist.SysExit 1 |}.
Proof.
  destruct (fail_on_ends_run (options MIXED [] (Some "GPL") None) None
              [Dist.dist "a" "1.0" "BSD"] (Dist.dist "b" "2.0" "GPL")
              [Dist.dist "c" "3.0" "MIT"]
              (Dist.built "b" "2.0" "GPL"))
    as (_ & _ & _ & Hy & _ & _ & _ & Hret & _).
  - vm_compute. discriminate.
  - vm_compute. reflexivity.
  - vm_compute. reflexivity.
  - vm_compute. discriminate.
  - destruct Hret as [Hs He]; [vm_compute; reflexivity|].
    destruct (Dist.get_packages _ _ _) as [y e s]. simpl in *.
    by rewrite Hy, He, Hs.
Defined.

(** C2, as stated, fails on two inputs. First, the package with the fail-on
    license comes after a package that the allow-only check rejects: the run
    ends at the earlier package and the diagnostic names it, not the package
    with the fail-on license. Second, the package with the fail-on license
    is skipped by the filter: the run returns with exit status 0. *)
Lemma fail_on_not_always_named :
  (fail_on_licenses (options MIXED [] (Some "GPL") (Some "MIT")) ≠ ∅
   ∧ Dist.dist "b" "2.0" "GPL"
       ∈ [Dist.dist "a" "1.0" "BSD"; Dist.dist "b" "2.0" "GPL"]
   ∧ Dist.included (options MIXED [] (Some "GPL") (Some "MIT"))
       (Dist.dist "b" "2.0" "GPL") = true
   ∧ Dist.get_pkg_info None (Dist.dist "b" "2.0" "GPL")
     = Value (Dist.built "b" "2.0" "GPL")
   ∧ license_intersect false
       (selected (options MIXED [] (Some "GPL") (Some "MIT"))
          (info (Dist.built "b" "2.0" "GPL")))
       (fail_on_licenses (options MIXED [] (Some "GPL") (Some "MIT")))
     = {[ "GPL" ]}
   ∧ Dist.stderr
       (Dist.get_packages (options MIXED [] (Some "GPL") (Some "MIT")) None
          [Dist.dist "a" "1.0" "BSD"; Dist.dist "b" "2.0" "GPL"])
     = [allow_only_message {[ "BSD" ]} (package "a" "1.0" "BSD")]
   ∧ Dist.stderr
       (Dist.get_packages (options MIXED [] (Some "GPL") (Some "MIT")) None
          [Dist.dist "a" "1.0" "BSD"; Dist.dist "b" "2.0" "GPL"])
     ≠ [fail_on_message {[ "GPL" ]} (package "b" "2.0" "GPL")])
  ∧ (fail_on_licenses (options MIXED ["b"] (Some "GPL") None) ≠ ∅
     ∧ Dist.get_pkg_info None (Dist.dist "b" "2.0" "GPL")
       = Value (Dist.built "b" "2.0" "GPL")
     ∧ license_intersect false
         (selected (options MIXED ["b"] (Some "GPL") None)
            (info (Dist.built "b" "2.0" "GPL")))
         (fail_on_licenses (options MIXED ["b"] (Some "GPL") None))
       = {[ "GPL" ]}
     ∧ Dist.get_packages (options MIXED ["b"] (Some "GPL") None) None
         [Dist.dist "b" "2.0" "GPL"]
       = {| Dist.yielded := []; Dist.stderr := [];
            Dist.status := Dist.Returned |}
     ∧ Dist.exit_status
         (Dist.status
            (Dist.get_packages (options MIXED ["b"] (Some "GPL") None) None
               [Dist.dist "b" "2.0" "GPL"])) = 0).
Proof.
  split.
  - split; [vm_compute; discriminate|].
    split; [set_solver|].
    split; [vm_compute; reflexivity|].
    split; [vm_compute; reflexivity|].
    split; [vm_compute; reflexivity|].
    split; [vm_compute; reflexivity|].
    vm_compute. discriminate.
  - split; [vm_compute; discriminate|].
    repeat split; vm_compute; reflexivity.
Qed.






